(** * Service worker of indiekit-frontend: a shallow embedding

    The development follows [src/lib/serviceworker.js]: the three named
    caches, the install and activate steps, the cache trimmer and the three
    fetch strategies (navigation, hashed asset, generic).  Asynchronous code
    is written in a small state-and-exception monad over the cache storage,
    a logical clock and a trace of observable events; promises supplied by
    the environment (network, navigation preload) carry the delay after
    which they settle. *)

From Stdlib Require Import Bool Arith List Lia Ascii String.
Import ListNotations.
Local Open Scope string_scope.
Local Open Scope list_scope.
Local Open Scope nat_scope.

Set Implicit Arguments.

(* ================================================================== *)
(** * Strings and regular expressions *)
(* ================================================================== *)

Module Str.

(** [String.prototype.includes]: some suffix of [s] starts with [needle]. *)
Fixpoint includes (needle s : string) : bool :=
  String.prefix needle s ||
  match s with
  | EmptyString => false
  | String _ s' => includes needle s'
  end.

(** [String.prototype.replace] with a string pattern: only the first
    occurrence is replaced. *)
Fixpoint replace (pat by_ s : string) : string :=
  if String.prefix pat s
  then by_ ++ String.substring (String.length pat)
                              (String.length s - String.length pat) s
  else match s with
       | EmptyString => EmptyString
       | String c s' => String c (replace pat by_ s')
       end.

(** Every character of [s] passes [p]. *)
Fixpoint all_chars (p : ascii -> bool) (s : string) : bool :=
  match s with
  | EmptyString => true
  | String c s' => p c && all_chars p s'
  end.

(** [occurs m s]: [m] is a contiguous part of [s]. *)
Definition occurs (m s : string) : Prop :=
  exists a b, s = (a ++ m ++ b)%string.

End Str.

Module Regex.

(** Regular expressions over characters; a character class is a list of
    inclusive ranges. *)
Inductive regex : Type :=
| Void : regex
| Eps : regex
| Class : list (ascii * ascii) -> regex
| Cat : regex -> regex -> regex
| Alt : regex -> regex -> regex
| Star : regex -> regex.

Definition in_range (c : ascii) (r : ascii * ascii) : bool :=
  (nat_of_ascii (fst r) <=? nat_of_ascii c) &&
  (nat_of_ascii c <=? nat_of_ascii (snd r)).

Definition in_class (c : ascii) (cls : list (ascii * ascii)) : bool :=
  existsb (in_range c) cls.

Definition Chr (c : ascii) : regex := Class [(c, c)].
Definition Plus (r : regex) : regex := Cat r (Star r).
Definition Opt (r : regex) : regex := Alt r Eps.

Fixpoint Lit (s : string) : regex :=
  match s with
  | EmptyString => Eps
  | String c s' => Cat (Chr c) (Lit s')
  end.

(** The language of a regular expression. *)
Inductive lang : regex -> string -> Prop :=
| L_Eps : lang Eps EmptyString
| L_Class cls c : in_class c cls = true -> lang (Class cls) (String c EmptyString)
| L_Cat r1 r2 s1 s2 : lang r1 s1 -> lang r2 s2 -> lang (Cat r1 r2) (s1 ++ s2)%string
| L_AltL r1 r2 s : lang r1 s -> lang (Alt r1 r2) s
| L_AltR r1 r2 s : lang r2 s -> lang (Alt r1 r2) s
| L_StarNil r : lang (Star r) EmptyString
| L_StarCons r s1 s2 :
    lang r s1 -> lang (Star r) s2 -> lang (Star r) (s1 ++ s2)%string.

Fixpoint nullable (r : regex) : bool :=
  match r with
  | Void => false
  | Eps => true
  | Class _ => false
  | Cat r1 r2 => nullable r1 && nullable r2
  | Alt r1 r2 => nullable r1 || nullable r2
  | Star _ => true
  end.

(** Brzozowski derivative. *)
Fixpoint deriv (c : ascii) (r : regex) : regex :=
  match r with
  | Void => Void
  | Eps => Void
  | Class cls => if in_class c cls then Eps else Void
  | Cat r1 r2 =>
      if nullable r1
      then Alt (Cat (deriv c r1) r2) (deriv c r2)
      else Cat (deriv c r1) r2
  | Alt r1 r2 => Alt (deriv c r1) (deriv c r2)
  | Star r1 => Cat (deriv c r1) (Star r1)
  end.

(** The whole of [s] is in the language. *)
Fixpoint matches (r : regex) (s : string) : bool :=
  match s with
  | EmptyString => nullable r
  | String c s' => matches (deriv c r) s'
  end.

(** Some prefix of [s] is in the language. *)
Fixpoint matches_prefix (r : regex) (s : string) : bool :=
  nullable r ||
  match s with
  | EmptyString => false
  | String c s' => matches_prefix (deriv c r) s'
  end.

(** [/r/.test(s)]: a match may start and end anywhere. *)
Fixpoint test (r : regex) (s : string) : bool :=
  matches_prefix r s ||
  match s with
  | EmptyString => false
  | String _ s' => test r s'
  end.

(** [/r$/.test(s)]: a match may start anywhere and ends where [s] ends. *)
Fixpoint test_to_end (r : regex) (s : string) : bool :=
  matches r s ||
  match s with
  | EmptyString => false
  | String _ s' => test_to_end r s'
  end.

End Regex.

(* ================================================================== *)
(** * Data model *)
(* ================================================================== *)

(** A response: status line, headers and body. *)
Record Response : Type := mkResponse {
  status : nat;
  statusText : string;
  headers : list (string * string);
  body : string
}.

(** [Response.ok]: the status is in the range 200-299. *)
Definition response_ok (r : Response) : bool :=
  (200 <=? status r) && (status r <=? 299).

(** The parts of a [Request] the worker reads.  [url_origin] stands for
    [new URL(request.url).origin]; [accept] for
    [request.headers.get("Accept")]. *)
Record Request : Type := mkRequest {
  url : string;
  url_origin : string;
  method : string;
  mode : string;
  accept : option string
}.

Inductive error : Type :=
| NetworkError      (* a fetch that rejects *)
| NetworkTimeout    (* [new Error("Network timeout")] *)
| BadStatus         (* [addAll] on a response that is not ok *)
| StorageError.     (* a cache that cannot be opened or written *)

(** A promise handed over by the environment, seen from the moment it is
    created: it never settles, or settles after [delay] milliseconds. *)
Inductive promise (A : Type) : Type :=
| Never : promise A
| Fulfils (delay : nat) (a : A) : promise A
| Rejects (delay : nat) (e : error) : promise A.
Arguments Never {A}.
Arguments Rejects {A} delay e.

(** A [FetchEvent]. *)
Record FetchEvent : Type := mkFetchEvent {
  request : Request;
  preloadResponse : promise (option Response)
}.

(** A window client. *)
Record Client : Type := mkClient {
  client_id : nat;
  client_url : string
}.

(** One cache: request URL to stored response, in insertion order, which is
    the order [cache.keys()] enumerates. *)
Definition Cache : Type := list (string * Response).

(** The cache storage: cache name to cache, in creation order, which is the
    order of [caches.keys()] and of the search of [caches.match]. *)
Definition CacheStorage : Type := list (string * Cache).

(** What the worker does that can be observed from outside. *)
Inductive Event : Type :=
| EvFetch (u : string)                      (* fetch(u) issued *)
| EvTimerStart (ms : nat)                   (* setTimeout(_, ms) *)
| EvLog (msg : string)                      (* console.error(msg, ...) *)
| EvCachesDelete (name : string)            (* caches.delete(name) *)
| EvEntryDelete (name : string) (u : string)   (* cache.delete(u) in [name] *)
| EvPostMessage (c : nat) (command version : string)
| EvClaim                                   (* clients.claim() *)
| EvSkipWaiting.                            (* skipWaiting() *)

Record World : Type := mkWorld {
  caches : CacheStorage;
  now : nat;
  trace : list Event
}.

(** Build-time inputs.  [placeholderImage] is the inline SVG of the source;
    only its identity matters here. *)
Record Config : Type := mkConfig {
  APP_VERSION : string;
  APP_CSS_PATH : string;
  APP_JS_PATH : string;
  placeholderImage : string;
  location_origin : string      (* self.location.origin *)
}.

(** The environment of one run. *)
Record Env : Type := mkEnv {
  net : string -> promise Response;       (* how fetch(u) settles *)
  open_fails : string -> bool;            (* caches.open(name) rejects *)
  put_fails : string -> string -> bool;   (* a write of u into name rejects *)
  allClients : list Client;   (* clients.matchAll({includeUncontrolled}) *)
  timer_wins_tie : bool       (* who is first when both settle together *)
}.

(* ================================================================== *)
(** * Pure operations on caches *)
(* ================================================================== *)

Module Store.

Definition entry_match (c : Cache) (u : string) : option Response :=
  option_map snd (find (fun e => String.eqb (fst e) u) c).

Definition entry_remove (c : Cache) (u : string) : Cache :=
  filter (fun e => negb (String.eqb (fst e) u)) c.

(** [put] replaces an entry of the same key; the new entry is last. *)
Definition entry_put (c : Cache) (u : string) (r : Response) : Cache :=
  entry_remove c u ++ [(u, r)].

Definition has_cache (s : CacheStorage) (name : string) : bool :=
  existsb (fun p => String.eqb (fst p) name) s.

Definition lookup (s : CacheStorage) (name : string) : Cache :=
  match find (fun p => String.eqb (fst p) name) s with
  | Some p => snd p
  | None => []
  end.

Fixpoint update (s : CacheStorage) (name : string) (f : Cache -> Cache)
  : CacheStorage :=
  match s with
  | [] => []
  | (n, c) :: s' =>
      if String.eqb n name then (n, f c) :: s'
      else (n, c) :: update s' name f
  end.

(** Open-or-create: a new cache is last in creation order. *)
Definition ensure (s : CacheStorage) (name : string) : CacheStorage :=
  if has_cache s name then s else s ++ [(name, [])].

Definition remove (s : CacheStorage) (name : string) : CacheStorage :=
  filter (fun p => negb (String.eqb (fst p) name)) s.

(** [caches.match]: the first cache, in creation order, with an entry. *)
Fixpoint match_any (s : CacheStorage) (u : string) : option Response :=
  match s with
  | [] => None
  | (_, c) :: s' =>
      match entry_match c u with
      | Some r => Some r
      | None => match_any s' u
      end
  end.

Definition names (s : CacheStorage) : list string := map fst s.
Definition keys (c : Cache) : list string := map fst c.

End Store.

(* ================================================================== *)
(** * Asynchronous computations *)
(* ================================================================== *)

(** How an awaited computation ends: with a value, with a thrown error, or
    never (it awaits a promise that does not settle). *)
Inductive res (A : Type) : Type :=
| Val (a : A) : res A
| Exc (e : error) : res A
| Pending : res A.
Arguments Exc {A} e.
Arguments Pending {A}.

(** State persists across a throw, as in the source: what was written
    before the exception stays written. *)
Definition M (A : Type) : Type := World -> World * res A.

Definition ret {A} (a : A) : M A := fun w => (w, Val a).

Definition bind {A B} (m : M A) (k : A -> M B) : M B :=
  fun w =>
    match m w with
    | (w', Val a) => k a w'
    | (w', Exc e) => (w', Exc e)
    | (w', Pending) => (w', Pending)
    end.

Definition throw {A} (e : error) : M A := fun w => (w, Exc e).

(** [try { m } catch (e) { h e }]. *)
Definition try_catch {A} (m : M A) (h : error -> M A) : M A :=
  fun w =>
    match m w with
    | (w', Exc e) => h e w'
    | other => other
    end.

Declare Scope async_scope.
Delimit Scope async_scope with async.
Notation "x <- m ;; k" := (bind m (fun x => k))
  (at level 61, m at next level, right associativity) : async_scope.
Notation "m ;; k" := (bind m (fun _ => k))
  (at level 61, right associativity) : async_scope.
Local Open Scope async_scope.

Definition emit (e : Event) : M unit :=
  fun w => (mkWorld (caches w) (now w) (trace w ++ [e]), Val tt).

(** [console.error(msg, ...)]. *)
Definition log (msg : string) : M unit := emit (EvLog msg).

Definition get_caches : M CacheStorage := fun w => (w, Val (caches w)).

Definition modify_caches (f : CacheStorage -> CacheStorage) : M unit :=
  fun w => (mkWorld (f (caches w)) (now w) (trace w), Val tt).

(** [await p]: the clock moves to the moment [p] settles. *)
Definition await {A} (p : promise A) : M A :=
  fun w =>
    match p with
    | Never => (w, Pending)
    | Fulfils d a => (mkWorld (caches w) (now w + d) (trace w), Val a)
    | Rejects d e => (mkWorld (caches w) (now w + d) (trace w), Exc e)
    end.

(** Calling an async function without awaiting it: its effects happen, the
    caller's clock does not move, and the caller holds a promise that
    settles after the time the body takes. *)
Definition async {A} (m : M A) : M (promise A) :=
  fun w =>
    match m w with
    | (w', r) =>
        let d := now w' - now w in
        (mkWorld (caches w') (now w) (trace w'),
         Val match r with
             | Val a => Fulfils d a
             | Exc e => Rejects d e
             | Pending => Never
             end)
    end.

Fixpoint mapM {A B} (f : A -> M B) (l : list A) : M (list B) :=
  match l with
  | [] => ret []
  | a :: l' => b <- f a ;; bs <- mapM f l' ;; ret (b :: bs)
  end.

Fixpoint forM_ {A} (l : list A) (f : A -> M unit) : M unit :=
  match l with
  | [] => ret tt
  | a :: l' => f a ;; forM_ l' f
  end.

(** The delay after which a promise settles, if it does. *)
Definition settles_at {A} (p : promise A) : option nat :=
  match p with
  | Never => None
  | Fulfils d _ => Some d
  | Rejects d _ => Some d
  end.

(** [Promise.race([p, q])]: the one that settles first; [q_first_on_tie]
    says who is taken when both settle at the same instant. *)
Definition race {A} (q_first_on_tie : bool) (p q : promise A) : promise A :=
  match settles_at p, settles_at q with
  | None, _ => q
  | _, None => p
  | Some dp, Some dq =>
      if dp <? dq then p
      else if dq <? dp then q
      else if q_first_on_tie then q else p
  end.

(** [Promise.all]: rejects with the earliest rejection; otherwise pending
    while some member is; otherwise fulfils when the last member does. *)
Fixpoint promise_all {A} (ps : list (promise A)) : promise (list A) :=
  match ps with
  | [] => Fulfils 0 []
  | p :: ps' =>
      match p, promise_all ps' with
      | Rejects d e, Rejects d' e' =>
          if d' <? d then Rejects d' e' else Rejects d e
      | Rejects d e, _ => Rejects d e
      | _, Rejects d' e' => Rejects d' e'
      | Never, _ => Never
      | _, Never => Never
      | Fulfils d a, Fulfils d' l => Fulfils (Nat.max d d') (a :: l)
      end
  end.

(* ================================================================== *)
(** * Message values *)
(* ================================================================== *)

(** The data of a message is whatever value the sender posted.  What the
    message listener does with it is modelled: reading a property of it,
    and comparing a value with a string by [==], which converts an
    object to a primitive first. *)
Module Js.











End Js.

(* ================================================================== *)
(** * The service worker *)
(* ================================================================== *)

Section Worker.

Variable cfg : Config.
Variable env : Env.

(** ** Constants *)

Definition assetCacheName : string := "assets-" ++ APP_VERSION cfg.
Definition pagesCacheName : string := "pages".
Definition imageCacheName : string := "images".
Definition timeout : nat := 5000.

(** [new Set([assetCacheName, pagesCacheName, imageCacheName])]. *)
Definition cacheList : list string :=
  [assetCacheName; pagesCacheName; imageCacheName].

Definition cacheList_has (key : string) : bool :=
  existsb (String.eqb key) cacheList.

(** A path given as a string literal is resolved against the worker's
    origin; request and client URLs are absolute already. *)
Definition resolve (path : string) : string :=
  (location_origin cfg ++ path)%string.

(** [[a-f0-9]]. *)
Definition hexDigit : list (ascii * ascii) :=
  [("a"%char, "f"%char); ("0"%char, "9"%char)].

(** [/\/assets\/app-[a-f0-9]+\.(js|css)$/]. *)
Definition hashedAssetPattern : Regex.regex :=
  Regex.Cat (Regex.Lit "/assets/app-")
    (Regex.Cat (Regex.Plus (Regex.Class hexDigit))
       (Regex.Cat (Regex.Chr "."%char)
          (Regex.Alt (Regex.Lit "js") (Regex.Lit "css")))).

Definition isHashedAsset (u : string) : bool :=
  Regex.test_to_end hashedAssetPattern u.

(** [/\.(jpe?g|png|gif|svg|webp)/]. *)
Definition imagePattern : Regex.regex :=
  Regex.Cat (Regex.Chr "."%char)
    (Regex.Alt (Regex.Cat (Regex.Lit "jp")
                  (Regex.Cat (Regex.Opt (Regex.Chr "e"%char))
                     (Regex.Chr "g"%char)))
       (Regex.Alt (Regex.Lit "png")
          (Regex.Alt (Regex.Lit "gif")
             (Regex.Alt (Regex.Lit "svg") (Regex.Lit "webp"))))).

Definition isImageUrl (u : string) : bool := Regex.test imagePattern u.

(** ** Platform operations

    What can fail is what the environment says can fail: a fetch ([net]),
    opening a cache ([open_fails]) and writing an entry ([put_fails]).
    Lookups, enumerations of keys and deletions act on the storage as it
    is and always succeed. *)

(** [fetch(u)]. *)
Definition fetch (u : string) : M Response :=
  emit (EvFetch u) ;; await (net env u).

(** [caches.open(name)]: creates the cache when it is absent; the handle
    is the name. *)
Definition caches_open (name : string) : M string :=
  if open_fails env name then throw StorageError
  else modify_caches (fun s => Store.ensure s name) ;; ret name.

(** [caches.match(u)]. *)
Definition caches_match (u : string) : M (option Response) :=
  s <- get_caches ;; ret (Store.match_any s u).

(** [caches.keys()]. *)
Definition caches_keys : M (list string) :=
  s <- get_caches ;; ret (Store.names s).

(** [caches.delete(name)]. *)
Definition caches_delete (name : string) : M bool :=
  s <- get_caches ;;
  emit (EvCachesDelete name) ;;
  modify_caches (fun s => Store.remove s name) ;;
  ret (Store.has_cache s name).

(** [cache.keys()]. *)
Definition cache_keys (cache : string) : M (list string) :=
  s <- get_caches ;; ret (Store.keys (Store.lookup s cache)).

(** [cache.delete(u)]. *)
Definition cache_delete (cache : string) (u : string) : M bool :=
  s <- get_caches ;;
  emit (EvEntryDelete cache u) ;;
  modify_caches (fun s =>
    Store.update s cache (fun c => Store.entry_remove c u)) ;;
  ret (existsb (String.eqb u) (Store.keys (Store.lookup s cache))).

(** [cache.put(u, r)]. *)
Definition cache_put (cache : string) (u : string) (r : Response) : M unit :=
  if put_fails env cache u then throw StorageError
  else modify_caches (fun s =>
         Store.update s cache (fun c => Store.entry_put c u r)).

(** [cache.addAll(urls)]: every URL is fetched, a response that is not ok
    is an error, and the entries are written only when all fetches went
    well.  The URLs are taken to be distinct, as the required URLs of a
    build are; the browser refuses a list that names one request twice,
    and a theorem about URLs that come from the environment assumes
    them distinct. *)
Definition cache_addAll (cache : string) (urls : list string) : M unit :=
  ps <- mapM (fun u =>
          async (r <- fetch u ;;
                 if response_ok r then ret (u, r) else throw BadStatus))
        urls ;;
  entries <- await (promise_all ps) ;;
  if existsb (put_fails env cache) urls then throw StorageError
  else modify_caches (fun s =>
         Store.update s cache (fun c =>
           fold_left (fun c e => Store.entry_put c (fst e) (snd e))
                     entries c)).

(** [clients.matchAll({ includeUncontrolled: true })]. *)
Definition clients_matchAll : M (list Client) := ret (allClients env).

(** [client.postMessage({ command, version })]. *)
Definition postMessage (client : Client) (command version : string)
  : M unit :=
  emit (EvPostMessage (client_id client) command version).

(** [clients.claim()]. *)
Definition clients_claim : M unit := emit EvClaim.

(** [globalThis.skipWaiting()]. *)
Definition skipWaiting : M unit := emit EvSkipWaiting.

(** [new Promise((_, reject) => setTimeout(() => reject(...), ms))]. *)
Definition timer_reject {A} (ms : nat) : M (promise A) :=
  emit (EvTimerStart ms) ;; ret (Rejects ms NetworkTimeout).

(** ** Install *)

Definition updateAssetCache : M (option string) :=
  try_catch
    (assetCache <- caches_open assetCacheName ;;
     (* not awaited: does not block the installation *)
     _ <- async (cache_addAll assetCache [resolve "/app.webmanifest"]) ;;
     (* awaited *)
     cache_addAll assetCache
       [resolve (APP_CSS_PATH cfg); resolve (APP_JS_PATH cfg);
        resolve "/offline"] ;;
     ret (Some assetCache))
    (fun _ => log "Error updating asset cache" ;; ret None).

Definition cacheClients : M (option string) :=
  try_catch
    (allClients <- clients_matchAll ;;
     let pages := map client_url allClients in
     pagesCache <- caches_open pagesCacheName ;;
     cache_addAll pagesCache pages ;;
     ret (Some pagesCache))
    (fun _ => log "Error updating client cache" ;; ret None).

(** The promise handed to [event.waitUntil] by the install listener. *)
Definition install : M unit :=
  updateAssetCache ;;
  cacheClients ;;
  skipWaiting.

(** ** Activate *)

Definition clearOldCaches : M unit :=
  try_catch
    (keys <- caches_keys ;;
     ps <- mapM (fun key => async (caches_delete key))
             (filter (fun key => negb (cacheList_has key)) keys) ;;
     await (promise_all ps) ;;
     ret tt)
    (fun _ => log "Error clearing old caches").

Definition notifyClients : M unit :=
  let version := Str.replace "assets-" "" assetCacheName in
  allClients <- clients_matchAll ;;
  forM_ allClients (fun client => postMessage client "SW_UPDATED" version).

(** The promise handed to [event.waitUntil] by the activate listener.  The
    second activate listener of the source, which enables navigation
    preload where the browser has it, touches neither caches nor clients
    and is left out. *)
Definition activate : M unit :=
  clearOldCaches ;;
  clients_claim ;;
  notifyClients.

(** ** Trimming *)

(** [trimCache] calls itself; [fuel] bounds the depth of the calls, and a
    call with no fuel left does not return. *)
Fixpoint trimCache_rec (fuel : nat) (cacheName : string) (maxItems : nat)
  : M unit :=
  match fuel with
  | O => fun w => (w, Pending)
  | S fuel' =>
      try_catch
        (cache <- caches_open cacheName ;;
         keys <- cache_keys cache ;;
         if maxItems <? List.length keys then
           (* keys[0]; keys is not empty here *)
           cache_delete cache (hd "undefined" keys) ;;
           trimCache_rec fuel' cacheName maxItems
         else ret tt)
        (fun _ => log ("Error trimming " ++ cacheName ++ " cache"))
  end.

(** Every call that recurses has removed an entry first, so one call more
    than the cache has entries is never short of fuel
    (see [trimCache_rec_fuel]). *)
Definition trimCache (cacheName : string) (maxItems : nat) : M unit :=
  fun w =>
    trimCache_rec (S (List.length (Store.lookup (caches w) cacheName)))
                  cacheName maxItems w.


(** ** Fetch strategies *)

Definition offlineResponse : Response :=
  mkResponse 503 "Service Unavailable"
             [("Content-Type", "text/plain")] "Offline".

Definition networkErrorResponse : Response :=
  mkResponse 503 "Service Unavailable"
             [("Content-Type", "text/plain")] "Network error".

Definition placeholderResponse : Response :=
  mkResponse 200 ""
             [("Content-Type", "image/svg+xml"); ("Cache-Control", "no-store")]
             (placeholderImage cfg).

(** HTML requests: network first, with a timeout only when there is a
    cached copy to fall back on.  [networkFetch] is the body of the async
    function of that name in the listener: the preload response if there
    is one, else a fetch. *)
Definition networkFetch (event : FetchEvent) : M Response :=
  preloadResponse <- await (preloadResponse event) ;;
  match preloadResponse with
  | Some r => ret r
  | None => fetch (url (request event))
  end.

Definition navigationStrategy (event : FetchEvent) : M Response :=
  let request := request event in
  cachedResponse <- caches_match (url request) ;;
  (* the async function is called here and awaited below *)
  networkFetch <- async (networkFetch event) ;;
  try_catch
    (responseFromNetwork <-
       match cachedResponse with
       | Some _ =>
           timer <- timer_reject timeout ;;
           await (race (timer_wins_tie env) networkFetch timer)
       | None => await networkFetch
       end ;;
     try_catch
       (let copy := responseFromNetwork in
        pagesCache <- caches_open pagesCacheName ;;
        cache_put pagesCache (url request) copy)
       (fun _ => log "Failed to cache page:") ;;
     ret responseFromNetwork)
    (fun _ =>
       match cachedResponse with
       | Some r => ret r
       | None =>
           offline <- caches_match (resolve "/offline") ;;
           match offline with
           | Some r => ret r
           | None => ret offlineResponse
           end
       end).

(** Hashed assets: cache first. *)
Definition hashedAssetStrategy (event : FetchEvent) : M Response :=
  let request := request event in
  responseFromCache <- caches_match (url request) ;;
  match responseFromCache with
  | Some r => ret r
  | None =>
      try_catch
        (responseFromFetch <- fetch (url request) ;;
         let copy := responseFromFetch in
         assetCache <- caches_open assetCacheName ;;
         cache_put assetCache (url request) copy ;;
         ret responseFromFetch)
        (fun _ => log "Fetch failed for hashed asset:" ;;
                  ret networkErrorResponse)
  end.

(** Everything else: stale while revalidate. *)
Definition genericStrategy (event : FetchEvent) : M Response :=
  let request := request event in
  let fallback : M Response :=
    if isImageUrl (url request) then ret placeholderResponse
    else ret networkErrorResponse in
  try_catch
    (responseFromCache <- caches_match (url request) ;;
     fetchPromise <- async
       (try_catch
          (responseFromFetch <- fetch (url request) ;;
           (if isImageUrl (url request) then
              try_catch
                (let copy := responseFromFetch in
                 imagesCache <- caches_open imageCacheName ;;
                 cache_put imagesCache (url request) copy)
                (fun _ => log "Failed to cache image:")
            else ret tt) ;;
           ret (Some responseFromFetch))
          (fun _ => log "Background fetch failed:" ;; ret None)) ;;
     match responseFromCache with
     | Some r => ret r
     | None =>
         responseFromFetch <- await fetchPromise ;;
         match responseFromFetch with
         | Some r => ret r
         | None => fallback
         end
     end)
    (fun _ => log "Fetch failed for non-HTML resource:" ;; fallback).

(** ** Router *)

Inductive Strategy : Type := Navigation | ImmutableAsset | Generic.

(** The chain of tests of the fetch listener; [None] is the early return
    that leaves the request to the browser. *)
Definition route (request : Request) : option Strategy :=
  if negb (String.eqb (url_origin request) (location_origin cfg))
     || negb (String.eqb (method request) "GET")
  then None
  else if String.eqb (mode request) "navigate"
          || Str.includes "text/html"
               (match accept request with Some a => a | None => "" end)
  then Some Navigation
  else if isHashedAsset (url request) then Some ImmutableAsset
  else Some Generic.

(** The fetch listener: the promise given to [event.respondWith], if any. *)
Definition onfetch (event : FetchEvent) : option (M Response) :=
  match route (request event) with
  | None => None
  | Some Navigation => Some (navigationStrategy event)
  | Some ImmutableAsset => Some (hashedAssetStrategy event)
  | Some Generic => Some (genericStrategy event)
  end.

End Worker.


(* ================================================================== *)
(** * Vocabulary of the specification *)
(* ================================================================== *)

(** The image extensions as the specification lists them; the source has
    them as the alternatives of [imagePattern]. *)
Definition imageSubstrings : list string :=
  [".jpg"; ".jpeg"; ".png"; ".gif"; ".svg"; ".webp"].

(** "The network fetch" of a navigation, as the promise the listener holds
    once it has called [networkFetch]: the preload response when the
    browser supplies one, else the fetch that starts when the preload has
    settled with nothing. *)
Definition networkOutcome (env : Env) (event : FetchEvent)
  : promise Response :=
  match preloadResponse event with
  | Never => Never
  | Rejects d e => Rejects d e
  | Fulfils d (Some r) => Fulfils d r
  | Fulfils d None =>
      match net env (url (request event)) with
      | Never => Never
      | Fulfils d' r => Fulfils (d + d') r
      | Rejects d' e => Rejects (d + d') e
      end
  end.

(** The fetches a navigation issues itself. *)
Definition navigationFetches (event : FetchEvent) : list Event :=
  match preloadResponse event with
  | Fulfils _ None => [EvFetch (url (request event))]
  | _ => []
  end.

(** The 5000 ms timer of the navigation strategy, as a promise. *)
Definition timeoutPromise : promise Response :=
  Rejects timeout NetworkTimeout.

(** What the navigation strategy awaits: the race when there is a cached
    response, the network fetch alone when there is none. *)
Definition awaitedByNavigation (env : Env) (cached : option Response)
    (p : promise Response) : promise Response :=
  match cached with
  | Some _ => race (timer_wins_tie env) p timeoutPromise
  | None => p
  end.

(** The fallback chain of the navigation strategy. *)
Definition navigationFallback (cfg : Config) (s : CacheStorage)
    (cached : option Response) : Response :=
  match cached with
  | Some r => r
  | None =>
      match Store.match_any s (resolve cfg "/offline") with
      | Some r => r
      | None => offlineResponse
      end
  end.

(** The world after the navigation strategy has tried to store the page:
    a failure to open or to write is logged and nothing else. *)
Definition pageWrite (env : Env) (s : CacheStorage) (n : nat)
    (t : list Event) (u : string) (r : Response) : World :=
  if open_fails env pagesCacheName
  then mkWorld s n (t ++ [EvLog "Failed to cache page:"])
  else if put_fails env pagesCacheName u
  then mkWorld (Store.ensure s pagesCacheName) n
               (t ++ [EvLog "Failed to cache page:"])
  else mkWorld (Store.update (Store.ensure s pagesCacheName) pagesCacheName
                  (fun c => Store.entry_put c u r)) n t.

(** The browser's part of the life cycle: a worker whose install promise
    resolves is activated, at once since it has called [skipWaiting]; a
    worker whose install promise rejects is discarded, and its activate
    listener never runs. *)
Definition installThenActivate (cfg : Config) (env : Env) : M unit :=
  install cfg env ;; activate cfg env.

(** "The set of existing cache names is exactly the valid set." *)
Definition cacheNamesExactlyValid (cfg : Config) (w : World) : Prop :=
  forall name, In name (Store.names (caches w)) <-> In name (cacheList cfg).

(** "The broadcast is sent before clients are claimed." *)
Definition broadcastBeforeClaim (tr : list Event) : Prop :=
  forall i j c command version,
    nth_error tr i = Some (EvPostMessage c command version) ->
    nth_error tr j = Some EvClaim ->
    i < j.

(* ================================================================== *)
(** * Sample configurations, environments and worlds *)
(* ================================================================== *)

Module Sample.

Definition origin : string := "https://example.org".

Definition cfg : Config :=
  mkConfig "v2" "/assets/app-0a1b2c.css" "/assets/app-0a1b2c.js"
           "<svg/>" origin.

Definition ok (b : string) : Response := mkResponse 200 "OK" [] b.

Definition home : string := "https://example.org/".
Definition script : string := "https://example.org/assets/app-0a1b2c.js".
Definition photo : string := "https://example.org/media/photo.png?w=200".
Definition feed : string := "https://example.org/feed.json".

Definition oneClient : list Client := [mkClient 1 home].

(** Network up, storage writable. *)
Definition envUp : Env :=
  mkEnv (fun u => Fulfils 10 (ok u)) (fun _ => false) (fun _ _ => false)
        oneClient true.

(** Network up except for the offline page, which is a required asset. *)
Definition envOfflineDown : Env :=
  mkEnv (fun u => if String.eqb u "https://example.org/offline"
                  then Rejects 30 NetworkError
                  else Fulfils 10 (ok u))
        (fun _ => false) (fun _ _ => false) oneClient true.

(** Network up, every cache write refused. *)
Definition envQuota : Env :=
  mkEnv (fun u => Fulfils 10 (ok u)) (fun _ => false) (fun _ _ => true)
        oneClient true.

(** Network down. *)
Definition envDown : Env :=
  mkEnv (fun _ => Rejects 15 NetworkError) (fun _ => false)
        (fun _ _ => false) oneClient true.

(** Network slower than the timeout. *)
Definition envSlow : Env :=
  mkEnv (fun u => Fulfils (timeout + 3000) (ok u)) (fun _ => false) (fun _ _ => false)
        oneClient true.

Definition fresh : World := mkWorld [] 0 [].

Definition fourPages : World :=
  mkWorld [("pages", [("a", ok "a"); ("b", ok "b");
                      ("c", ok "c"); ("d", ok "d")])] 0 [].

Definition withOldAssets : World :=
  mkWorld [("assets-v1", [(script, ok "old")]); ("assets-v2", []);
           ("pages", [])] 0 [].

Definition cachedHome : World :=
  mkWorld [("pages", [(home, ok "stale")])] 0 [].

Definition cachedScript : World :=
  mkWorld [("assets-v2", [(script, ok "js")])] 0 [].

Definition navigateHome : FetchEvent :=
  mkFetchEvent (mkRequest home origin "GET" "navigate" (Some "text/html"))
               (Fulfils 0 None).

Definition getScript : FetchEvent :=
  mkFetchEvent (mkRequest script origin "GET" "no-cors" (Some "*/*"))
               (Fulfils 0 None).

Definition getPhoto : FetchEvent :=
  mkFetchEvent (mkRequest photo origin "GET" "no-cors" (Some "image/*"))
               (Fulfils 0 None).

Definition getFeed : FetchEvent :=
  mkFetchEvent (mkRequest feed origin "GET" "cors"
                          (Some "application/json"))
               (Fulfils 0 None).

End Sample.

(* ================================================================== *)
(** * More vocabulary for the service worker *)
(* ================================================================== *)





(** One member of [addAll]: the fetch of [u], where a response that is
    not ok counts as a failure. *)
Definition fetchForAddAll (env : Env) (u : string)
  : promise (string * Response) :=
  match net env u with
  | Never => Never
  | Fulfils d r =>
      if response_ok r then Fulfils d (u, r) else Rejects d BadStatus
  | Rejects d e => Rejects d e
  end.

(** The URLs the installation must cache. *)
Definition requiredUrls (cfg : Config) : list string :=
  [resolve cfg (APP_CSS_PATH cfg); resolve cfg (APP_JS_PATH cfg);
   resolve cfg "/offline"].

(** The request is a navigation or asks for HTML. *)
Definition wantsHtml (request : Request) : Prop :=
  mode request = "navigate" \/
  Str.occurs "text/html"
    (match accept request with Some a => a | None => "" end).

(** The request is one the worker handles at all. *)
Definition sameOriginGet (cfg : Config) (request : Request) : Prop :=
  url_origin request = location_origin cfg /\ method request = "GET".

(* ================================================================== *)
(** * The media browser *)
(* ================================================================== *)

(** [openMediaBrowser] of the source, as a state machine: the variables
    of its closure, the parts of the modal that its code reads or writes,
    and the callbacks it makes.  A load is taken as one step, from the
    request to the reply. *)
Module MediaBrowser.

(** One item of the media endpoint's reply: [item.url] and
    [item["media-type"]]. *)
Record Item : Type := mkItem {
  item_url : string;
  item_media_type : option string
}.

(** [item["media-type"] || ""]. *)
Definition mediaTypeOf (item : Item) : string :=
  match item_media_type item with
  | Some t => t
  | None => ""
  end.

(** The three icons: U+1F4C4, U+1F3B5 and U+1F3AC. *)
Inductive Icon : Type := PageIcon | NoteIcon | ClapperIcon.

Definition isImageType (mediaType : string) : bool :=
  String.eqb mediaType "photo".

Definition getMediaIcon (mediaType : string) : Icon :=
  if String.eqb mediaType "" then PageIcon
  else if String.eqb mediaType "audio" then NoteIcon
  else if String.eqb mediaType "video" then ClapperIcon
  else PageIcon.

(** [s.split(sep)] for a one-character separator; never empty. *)
Fixpoint split (sep : ascii) (s : string) : list string :=
  match s with
  | EmptyString => [EmptyString]
  | String c s' =>
      if Ascii.eqb c sep then EmptyString :: split sep s'
      else match split sep s' with
           | h :: t => String c h :: t
           | [] => [String c EmptyString]
           end
  end.

(** [url.split("/").pop()]. *)
Definition lastSegment (u : string) : string :=
  last (split "/"%char u) EmptyString.

(** What a tile shows: a thumbnail, or an icon and the file name. *)
Inductive TileBody : Type :=
| Thumbnail (src alt : string)
| IconAndName (icon : Icon) (name : string).

(** A tile of the grid, with what its click handler has captured. *)
Record Tile : Type := mkTile {
  tile_url : string;
  tile_filename : string;
  tile_isImage : bool;
  tile_body : TileBody
}.

Inductive Grid : Type :=
| Tiles (tiles : list Tile)
| ErrorMessage (text : string).

(** The state: [allItems], [afterCursor] and [activeFilter] of the
    closure; the grid; the [hidden] flags of the loading line, of the
    empty line and of the load-more button; whether the overlay is in the
    document; [document.body.style.overflow]; whether the keydown
    listener is on the document. *)
Record Browser : Type := mkBrowser {
  allItems : list Item;
  afterCursor : option string;
  activeFilter : string;
  grid : Grid;
  loadingHidden : bool;
  emptyHidden : bool;
  loadMoreHidden : bool;
  attached : bool;
  bodyOverflow : string;
  escapeBound : bool
}.

(** The search parameters of a request to the endpoint. *)
Record Query : Type := mkQuery {
  query_q : string;
  query_limit : string;
  query_after : option string
}.

(** How a load ends: [fetch] rejects, the response is not ok,
    [response.json()] fails, or there is data, with [data.items] and
    [data.paging.after] present or not. *)
Inductive Reply : Type :=
| NetworkFailure (message : string)
| HttpFailure (statusText : string)
| JsonFailure (message : string)
| Data (items : option (list Item)) (pagingAfter : option string).

(** Calls of the callbacks given to [openMediaBrowser]. *)
Inductive Callback : Type :=
| OnSelect (u filename : string) (isImage : bool)
| OnClose.

(** What the user can do to the modal. *)
Inductive UiEvent : Type :=
| ClickFilter (name : string)
| ClickLoadMore
| ClickOverlay
| ClickCloseButton
| ClickTile (index : nat)
| KeyDown (key : string).

Definition filterButtons : list string := ["all"; "photo"; "audio"; "video"].

Section WithPlatform.

(** [decodeURIComponent], which throws on a malformed sequence, and
    [encodeURIComponent]. *)
Variable decodeURIComponent : string -> option string.
Variable encodeURIComponent : string -> string.
(** Whether [onClose] was given. *)
Variable hasOnClose : bool.
(** The media endpoint. *)
Variable server : Query -> Reply.

Definition getFilteredItems (activeFilter : string) (items : list Item)
  : list Item :=
  if String.eqb activeFilter "all" then items
  else List.filter
         (fun item => String.eqb (mediaTypeOf item) activeFilter) items.

Definition getFilename (u : string) : string :=
  match decodeURIComponent (lastSegment u) with
  | Some name => name
  | None => lastSegment u
  end.

(** The tile [renderGrid] builds for an item. *)
Definition tileOf (item : Item) : Tile :=
  let u := item_url item in
  let mediaType := mediaTypeOf item in
  let isImage := isImageType mediaType in
  let filename := getFilename u in
  mkTile u filename isImage
    (if isImage
     then Thumbnail ("/image/s_240x240/" ++ encodeURIComponent u) filename
     else IconAndName (getMediaIcon mediaType) filename).

Definition renderGrid (b : Browser) : Browser :=
  let filtered := getFilteredItems (activeFilter b) (allItems b) in
  mkBrowser (allItems b) (afterCursor b) (activeFilter b)
    (Tiles (map tileOf filtered))
    (loadingHidden b)
    (negb (Nat.eqb (List.length filtered) 0))
    (loadMoreHidden b) (attached b) (bodyOverflow b) (escapeBound b).

Definition queryOf (b : Browser) : Query :=
  mkQuery "source" "20" (afterCursor b).

(** [data.paging && data.paging.after ? data.paging.after : null]. *)
Definition cursorOf (pagingAfter : option string) : option string :=
  match pagingAfter with
  | Some a => if String.eqb a "" then None else Some a
  | None => None
  end.

Definition showError (message : string) (b : Browser) : Browser :=
  mkBrowser (allItems b) (afterCursor b) (activeFilter b)
    (ErrorMessage ("Error loading media: " ++ message))
    true (emptyHidden b) true (attached b) (bodyOverflow b)
    (escapeBound b).

(** [fetchMedia], from the request to the end of its [finally]. *)
Definition fetchMedia (b : Browser) : Browser :=
  match server (queryOf b) with
  | NetworkFailure message => showError message b
  | HttpFailure statusText => showError statusText b
  | JsonFailure message => showError message b
  | Data items pagingAfter =>
      let items := match items with Some l => l | None => [] end in
      let cursor := cursorOf pagingAfter in
      let loaded :=
        mkBrowser (allItems b ++ items) cursor (activeFilter b) (grid b)
          false (emptyHidden b)
          (match cursor with Some _ => false | None => true end)
          (attached b) (bodyOverflow b) (escapeBound b) in
      let rendered := renderGrid loaded in
      mkBrowser (allItems rendered) (afterCursor rendered)
        (activeFilter rendered) (grid rendered) true
        (emptyHidden rendered) (loadMoreHidden rendered)
        (attached rendered) (bodyOverflow rendered) (escapeBound rendered)
  end.

(** [if (onClose) onClose()]. *)
Definition closeCalls : list Callback :=
  if hasOnClose then [OnClose] else [].

Definition close (b : Browser) : Browser * list Callback :=
  (mkBrowser (allItems b) (afterCursor b) (activeFilter b) (grid b)
     (loadingHidden b) (emptyHidden b) (loadMoreHidden b)
     false "" false,
   closeCalls).

(** [openMediaBrowser({ ..., filterType })]: the modal is built and the
    first load is made. *)
Definition openMediaBrowser (filterType : option string) : Browser :=
  let activeFilter :=
    match filterType with
    | Some f => if String.eqb f "" then "all" else f
    | None => "all"
    end in
  fetchMedia
    (mkBrowser [] None activeFilter (Tiles []) false true true
       true "hidden" true).

(** The listeners.  A click needs its target in the document, and for a
    button, the button shown; the keydown listener is on the document for
    as long as it is registered. *)
Definition handle (ev : UiEvent) (b : Browser) : Browser * list Callback :=
  match ev with
  | KeyDown key =>
      if escapeBound b && String.eqb key "Escape" then close b
      else (b, [])
  | _ =>
      if negb (attached b) then (b, [])
      else
        match ev with
        | ClickFilter f =>
            if existsb (String.eqb f) filterButtons then
              (renderGrid
                 (mkBrowser (allItems b) (afterCursor b) f (grid b)
                    (loadingHidden b) (emptyHidden b) (loadMoreHidden b)
                    (attached b) (bodyOverflow b) (escapeBound b)),
               [])
            else (b, [])
        | ClickLoadMore =>
            if loadMoreHidden b then (b, []) else (fetchMedia b, [])
        | ClickOverlay => close b
        | ClickCloseButton => close b
        | ClickTile i =>
            match grid b with
            | Tiles tiles =>
                match nth_error tiles i with
                | Some t =>
                    let (b', calls) := close b in
                    (b', OnSelect (tile_url t) (tile_filename t)
                           (tile_isImage t) :: calls)
                | None => (b, [])
                end
            | ErrorMessage _ => (b, [])
            end
        | KeyDown _ => (b, [])
        end
  end.

(** A sequence of events, and the callbacks made along it. *)
Fixpoint run (evs : list UiEvent) (b : Browser) : Browser * list Callback :=
  match evs with
  | [] => (b, [])
  | ev :: evs' =>
      let (b1, calls1) := handle ev b in
      let (b2, calls2) := run evs' b1 in
      (b2, calls1 ++ calls2)
  end.

(** The tiles in the grid are those of the filtered items, the load-more
    button is shown only when there is a cursor to go on from, and the
    keydown listener is registered exactly while the overlay is in the
    document. *)
Definition consistent (b : Browser) : Prop :=
  (forall tiles, grid b = Tiles tiles ->
     tiles = map tileOf (getFilteredItems (activeFilter b) (allItems b))) /\
  (loadMoreHidden b = false -> afterCursor b <> None) /\
  escapeBound b = attached b.

End WithPlatform.

End MediaBrowser.

(* ================================================================== *)
(** * The file input and its media browser *)
(* ================================================================== *)

(** The part of [FileInputFieldController] that opens the media browser:
    [browseMedia], with the callbacks it hands over. *)
Module FileInput.
Import MediaBrowser.

(** [_mediaBrowserOpen], the value of the path input, and the [accept]
    attribute of the file input, if there is one. *)
Record Field : Type := mkField {
  mediaBrowserOpen : bool;
  pathValue : string;
  acceptAttr : option string
}.

(** The field with every modal it has opened, oldest first. *)
Record Page : Type := mkPage {
  field : Field;
  modals : list Browser
}.

Inductive PageEvent : Type :=
| ClickBrowse                          (* the "Browse media" button *)
| ClickIn (modal : nat) (ev : UiEvent) (* a click inside a modal *)
| PressKey (key : string).             (* a keydown on the document *)

(** The filter [browseMedia] derives from the [accept] attribute. *)
Definition filterTypeOf (acceptAttr : option string) : string :=
  match acceptAttr with
  | None => "all"
  | Some a =>
      if String.eqb a "" then "all"
      else if String.prefix "image/" a then "photo"
      else if String.prefix "audio/" a then "audio"
      else if String.prefix "video/" a then "video"
      else "all"
  end.

(** [onSelect] and [onClose] as [browseMedia] defines them. *)
Definition callback (c : Callback) (f : Field) : Field :=
  match c with
  | OnSelect u _ _ => mkField (mediaBrowserOpen f) u (acceptAttr f)
  | OnClose => mkField false (pathValue f) (acceptAttr f)
  end.

Definition callbacks (cs : list Callback) (f : Field) : Field :=
  fold_left (fun f c => callback c f) cs f.

Section WithPlatform.

Variable decodeURIComponent : string -> option string.
Variable encodeURIComponent : string -> string.
Variable server : Query -> Reply.

Definition browseMedia (p : Page) : Page :=
  if mediaBrowserOpen (field p) then p
  else
    let f := field p in
    mkPage (mkField true (pathValue f) (acceptAttr f))
           (modals p ++
            [openMediaBrowser decodeURIComponent encodeURIComponent server
               (Some (filterTypeOf (acceptAttr f)))]).

(** An event is given to every modal in [bs] that [pick] selects; the
    callbacks they make act on the field. *)
Fixpoint dispatch (pick : nat -> bool) (ev : UiEvent) (i : nat)
    (bs : list Browser) (f : Field) : list Browser * Field :=
  match bs with
  | [] => ([], f)
  | b :: bs' =>
      let (b', cs) :=
        if pick i
        then handle decodeURIComponent encodeURIComponent true server ev b
        else (b, []) in
      let (bs'', f') := dispatch pick ev (S i) bs' (callbacks cs f) in
      (b' :: bs'', f')
  end.

Definition step (ev : PageEvent) (p : Page) : Page :=
  match ev with
  | ClickBrowse => browseMedia p
  | ClickIn i (KeyDown _) => p
  | ClickIn i ev =>
      let (bs, f) := dispatch (Nat.eqb i) ev 0 (modals p) (field p) in
      mkPage f bs
  | PressKey key =>
      let (bs, f) :=
        dispatch (fun _ => true) (KeyDown key) 0 (modals p) (field p) in
      mkPage f bs
  end.

Definition steps (evs : list PageEvent) (p : Page) : Page :=
  fold_left (fun p ev => step ev p) evs p.

End WithPlatform.

(** The number of modals in the document. *)
Definition attachedCount (bs : list Browser) : nat :=
  List.length (List.filter attached bs).

(** Every modal has its keydown listener exactly while it is in the
    document. *)
Definition bound (bs : list Browser) : Prop :=
  Forall (fun b => escapeBound b = attached b) bs.

(** The flag [_mediaBrowserOpen] counts the modals in the document. *)
Definition guarded (p : Page) : Prop :=
  bound (modals p) /\
  attachedCount (modals p) =
    if mediaBrowserOpen (field p) then 1 else 0.

End FileInput.

(* ================================================================== *)
(** * The sidebar *)
(* ================================================================== *)

(** [SidebarComponent]: the class lists it changes and where it puts the
    focus.  The backdrop, the close button, the hamburger and the first
    link are looked up in the document and may be missing. *)
Module Sidebar.

Inductive Focus : Type := Elsewhere | OnFirstLink | OnHamburger.

Record State : Type := mkState {
  classList : list string;            (* of the sidebar *)
  backdrop : option (list string);    (* class list of the backdrop *)
  hasCloseButton : bool;
  hasHamburger : bool;
  hasFirstLink : bool;
  focus : Focus
}.

Inductive Event : Type :=
| ClickClose
| ClickBackdrop
| ClickHamburger
| KeyDown (key : string)
| MediaChange (matches : bool).   (* the (width >= 48rem) query *)

Definition contains (token : string) (l : list string) : bool :=
  existsb (String.eqb token) l.

(** [classList.add] and [classList.remove]. *)
Definition add (token : string) (l : list string) : list string :=
  if contains token l then l else l ++ [token].

Definition remove (token : string) (l : list string) : list string :=
  List.filter (fun t => negb (String.eqb t token)) l.

Definition open (s : State) : State :=
  mkState (add "sidebar--open" (classList s))
          (option_map (add "sidebar-backdrop--visible") (backdrop s))
          (hasCloseButton s) (hasHamburger s) (hasFirstLink s)
          (if hasFirstLink s then OnFirstLink else focus s).

Definition close (s : State) : State :=
  mkState (remove "sidebar--open" (classList s))
          (option_map (remove "sidebar-backdrop--visible") (backdrop s))
          (hasCloseButton s) (hasHamburger s) (hasFirstLink s)
          (if hasHamburger s then OnHamburger else focus s).

Definition isOpen (s : State) : bool :=
  contains "sidebar--open" (classList s).

(** The listeners [connectedCallback] registers. *)
Definition handle (ev : Event) (s : State) : State :=
  match ev with
  | ClickClose => if hasCloseButton s then close s else s
  | ClickBackdrop =>
      match backdrop s with Some _ => close s | None => s end
  | ClickHamburger => if hasHamburger s then open s else s
  | KeyDown key =>
      if String.eqb key "Escape" && isOpen s then close s else s
  | MediaChange matches =>
      if matches && isOpen s then close s else s
  end.

Definition run (evs : list Event) (s : State) : State :=
  fold_left (fun s ev => handle ev s) evs s.

(** The backdrop, when there is one, is visible exactly when the sidebar
    is open. *)
Definition inStep (s : State) : Prop :=
  forall b, backdrop s = Some b ->
    contains "sidebar-backdrop--visible" b = isOpen s.

End Sidebar.

(* ================================================================== *)
(** * More samples *)
(* ================================================================== *)

Module MoreSample.
Import Sample.

(** A navigation for which the browser has a preload response. *)
Definition navigatePreloaded : FetchEvent :=
  mkFetchEvent (mkRequest home origin "GET" "navigate" (Some "text/html"))
               (Fulfils 5 (Some (ok "preloaded"))).

Definition cachedPhoto : World :=
  mkWorld [("images", [(photo, ok "cached")])] 0 [].

(** A media endpoint with two pages. *)
Definition photoItem : MediaBrowser.Item :=
  MediaBrowser.mkItem "https://example.org/media/100%.png" (Some "photo").
Definition audioItem : MediaBrowser.Item :=
  MediaBrowser.mkItem "https://example.org/media/talk.mp3" (Some "audio").
Definition otherItem : MediaBrowser.Item :=
  MediaBrowser.mkItem "https://example.org/media/notes.pdf" None.

Definition twoPages (q : MediaBrowser.Query) : MediaBrowser.Reply :=
  match MediaBrowser.query_after q with
  | None => MediaBrowser.Data (Some [photoItem; audioItem]) (Some "page2")
  | Some _ => MediaBrowser.Data (Some [otherItem]) None
  end.

(** A media endpoint that refuses. *)
Definition forbidden (q : MediaBrowser.Query) : MediaBrowser.Reply :=
  MediaBrowser.HttpFailure "Forbidden".

(** A stand-in for [decodeURIComponent] that is right on the samples: it
    throws on the malformed percent sign of [100%.png] and returns text
    without a percent sign as it is. *)
Definition decodePlain (s : string) : option string :=
  if Str.includes "%" s then None else Some s.

Definition encodePlain (s : string) : string := s.














Definition emptyField : FileInput.Field :=
  FileInput.mkField false "" (Some "image/*").

Definition closedSidebar : Sidebar.State :=
  Sidebar.mkState ["sidebar"] (Some ["sidebar-backdrop"]) true true true
                  Sidebar.Elsewhere.

End MoreSample.
(* ================================================================== *)
(** * Facts about strings and regular expressions *)
(* ================================================================== *)

Module StrFacts.

Lemma append_nil_r (s : string) : (s ++ "")%string = s.
Proof. induction s; simpl; congruence. Qed.

Lemma append_assoc (a b c : string) :
  ((a ++ b) ++ c)%string = (a ++ (b ++ c))%string.
Proof. induction a; simpl; congruence. Qed.

Lemma append_eq_nil (a b : string) :
  (a ++ b)%string = "" -> a = "" /\ b = "".
Proof. destruct a; simpl; [auto|discriminate]. Qed.

(** A non-empty concatenation starts in its first part, or the first part
    is empty. *)
Lemma append_eq_cons (a b : string) (c : ascii) (s : string) :
  (a ++ b)%string = String c s ->
  (a = "" /\ b = String c s) \/
  (exists a', a = String c a' /\ s = (a' ++ b)%string).
Proof.
  destruct a as [|c' a']; simpl; intros H.
  - now left.
  - right. injection H as -> <-. eauto.
Qed.

Lemma prefix_iff (p s : string) :
  String.prefix p s = true <-> exists q, s = (p ++ q)%string.
Proof.
  revert s. induction p as [|c p IH]; intros s; simpl.
  - split; [eauto|]. now destruct s.
  - destruct s as [|c' s]; [split; [discriminate|intros [q Hq]; discriminate]|].
    simpl. destruct (ascii_dec c c') as [->|D].
    + rewrite IH. split; intros [q Hq]; exists q; congruence.
    + split; [discriminate|]. intros [q Hq]. congruence.
Qed.

Lemma includes_iff (needle s : string) :
  Str.includes needle s = true <-> Str.occurs needle s.
Proof.
  unfold Str.occurs. induction s as [|c s IH]; cbn [Str.includes].
  - rewrite orb_false_r, prefix_iff. split.
    + intros [q Hq]. now exists "", q.
    + intros (a & b & H). symmetry in H.
      apply append_eq_nil in H as [-> H]. simpl in H. eauto.
  - rewrite orb_true_iff, IH, prefix_iff. split.
    + intros [[q Hq]|(a & b & H)].
      * now exists "", q.
      * exists (String c a), b. simpl. congruence.
    + intros (a & b & H). destruct a as [|c' a]; simpl in H.
      * left. eauto.
      * right. injection H as _ H. eauto.
Qed.

End StrFacts.

Module RegexFacts.
Import Regex StrFacts.

Lemma nullable_iff (r : regex) : nullable r = true <-> lang r "".
Proof.
  split.
  - induction r; simpl; intros H; try discriminate.
    + constructor.
    + apply andb_true_iff in H as [H1 H2].
      change "" with ("" ++ "")%string. constructor; auto.
    + apply orb_true_iff in H as [H|H]; [apply L_AltL|apply L_AltR]; auto.
    + constructor.
  - intros H. remember "" as s eqn:Es.
    induction H; simpl; auto; try discriminate.
    + apply append_eq_nil in Es as [-> ->]. rewrite IHlang1, IHlang2; auto.
    + rewrite IHlang; auto.
    + rewrite IHlang, orb_true_r; auto.
Qed.

Lemma deriv_sound (c : ascii) (r : regex) : forall s,
  lang (deriv c r) s -> lang r (String c s).
Proof.
  induction r; simpl; intros s H.
  - inversion H.
  - inversion H.
  - destruct (in_class c l) eqn:E; inversion H; subst. now constructor.
  - assert (Hcat : forall t, lang (Cat (deriv c r1) r2) t ->
                             lang (Cat r1 r2) (String c t)).
    { intros t Ht. inversion Ht; subst.
      change (String c (s1 ++ s2)) with (String c s1 ++ s2)%string.
      constructor; auto. }
    destruct (nullable r1) eqn:E; auto.
    inversion H; subst; auto.
    change (String c s) with ("" ++ String c s)%string.
    constructor; auto. now apply nullable_iff.
  - inversion H; subst; [apply L_AltL|apply L_AltR]; auto.
  - inversion H; subst.
    change (String c (s1 ++ s2)) with (String c s1 ++ s2)%string.
    constructor; auto.
Qed.

Lemma deriv_complete (c : ascii) (r : regex) (s : string) :
  lang r (String c s) -> lang (deriv c r) s.
Proof.
  intros H. remember (String c s) as t eqn:Et. revert s Et.
  induction H as [|cls d Hd|r1 r2 s1 s2 H1 IH1 H2 IH2|r1 r2 s0 H0 IH0
                 |r1 r2 s0 H0 IH0| |r1 s1 s2 H1 IH1 H2 IH2];
    intros t' Et; simpl; try discriminate.
  - injection Et as -> <-. rewrite Hd. constructor.
  - apply append_eq_cons in Et as [[-> ->]|(a' & -> & ->)].
    + apply nullable_iff in H1. rewrite H1. apply L_AltR. auto.
    + assert (lang (Cat (deriv c r1) r2) (a' ++ s2)%string)
        by (constructor; auto).
      destruct (nullable r1); auto. now apply L_AltL.
  - apply L_AltL. auto.
  - apply L_AltR. auto.
  - apply append_eq_cons in Et as [[-> ->]|(a' & -> & ->)].
    + auto.
    + constructor; auto.
Qed.

Lemma matches_iff (r : regex) (s : string) :
  matches r s = true <-> lang r s.
Proof.
  revert r. induction s as [|c s IH]; intros r; simpl.
  - apply nullable_iff.
  - rewrite IH. split; [apply deriv_sound|apply deriv_complete].
Qed.

Lemma matches_prefix_iff (r : regex) (s : string) :
  matches_prefix r s = true <->
  exists p q, s = (p ++ q)%string /\ lang r p.
Proof.
  revert r. induction s as [|c s IH]; intros r; simpl.
  - rewrite orb_false_r, nullable_iff. split.
    + intros H. now exists "", "".
    + intros (p & q & E & H). symmetry in E.
      apply append_eq_nil in E as [-> _]. auto.
  - rewrite orb_true_iff, nullable_iff, IH. split.
    + intros [H|(p & q & -> & H)].
      * now exists "", (String c s).
      * exists (String c p), q. split; auto. now apply deriv_sound.
    + intros (p & q & E & H). symmetry in E.
      apply append_eq_cons in E as [[-> _]|(p' & -> & ->)]; auto.
      right. exists p', q. split; auto. now apply deriv_complete.
Qed.

(** [test] finds exactly the strings with a part in the language. *)
Lemma test_iff (r : regex) (s : string) :
  test r s = true <-> exists m, lang r m /\ Str.occurs m s.
Proof.
  unfold Str.occurs. induction s as [|c s IH]; cbn [test].
  - rewrite orb_false_r, matches_prefix_iff. split.
    + intros (p & q & E & H). exists p. split; auto. now exists "", q.
    + intros (m & H & a & b & E). symmetry in E.
      apply append_eq_nil in E as [-> E]. simpl in E. eauto.
  - rewrite orb_true_iff, matches_prefix_iff, IH. split.
    + intros [(p & q & E & H)|(m & H & a & b & E)].
      * exists p. split; auto. now exists "", q.
      * exists m. split; auto. exists (String c a), b. simpl. congruence.
    + intros (m & H & a & b & E). destruct a as [|c' a]; simpl in E.
      * left. eauto.
      * right. injection E as _ E. eauto.
Qed.

(** [test_to_end] finds exactly the strings with an end in the language. *)
Lemma test_to_end_iff (r : regex) (s : string) :
  test_to_end r s = true <-> exists a m, s = (a ++ m)%string /\ lang r m.
Proof.
  induction s as [|c s IH]; cbn [test_to_end].
  - rewrite orb_false_r, matches_iff. split.
    + intros H. now exists "", "".
    + intros (a & m & E & H). symmetry in E.
      apply append_eq_nil in E as [_ ->]. auto.
  - rewrite orb_true_iff, matches_iff, IH. split.
    + intros [H|(a & m & -> & H)].
      * now exists "", (String c s).
      * now exists (String c a), m.
    + intros (a & m & E & H). destruct a as [|c' a]; simpl in E.
      * left. congruence.
      * right. injection E as _ E. eauto.
Qed.

(** ** Languages of the pieces the patterns are built from *)

Lemma in_class_single (c d : ascii) :
  in_class d [(c, c)] = true <-> d = c.
Proof.
  unfold in_class, in_range. simpl. rewrite orb_false_r, andb_true_iff.
  rewrite !Nat.leb_le. split.
  - intros [H1 H2]. rewrite <- (ascii_nat_embedding d), <- (ascii_nat_embedding c).
    f_equal. lia.
  - intros ->. lia.
Qed.

Lemma lang_Chr (c : ascii) (m : string) :
  lang (Chr c) m <-> m = String c "".
Proof.
  unfold Chr. split.
  - intros H. inversion H; subst. f_equal. now apply in_class_single.
  - intros ->. constructor. now apply in_class_single.
Qed.

Lemma lang_Eps (m : string) : lang Eps m <-> m = "".
Proof. split; [intros H; now inversion H|intros ->; constructor]. Qed.

Lemma lang_Cat (r1 r2 : regex) (m : string) :
  lang (Cat r1 r2) m <->
  exists m1 m2, m = (m1 ++ m2)%string /\ lang r1 m1 /\ lang r2 m2.
Proof.
  split.
  - intros H. inversion H; subst. eauto.
  - intros (m1 & m2 & -> & H1 & H2). now constructor.
Qed.

Lemma lang_Alt (r1 r2 : regex) (m : string) :
  lang (Alt r1 r2) m <-> lang r1 m \/ lang r2 m.
Proof.
  split.
  - intros H. inversion H; subst; auto.
  - intros [H|H]; [apply L_AltL|apply L_AltR]; auto.
Qed.

Lemma lang_Opt (r : regex) (m : string) :
  lang (Opt r) m <-> lang r m \/ m = "".
Proof. unfold Opt. now rewrite lang_Alt, lang_Eps. Qed.

Lemma lang_Lit (s m : string) : lang (Lit s) m <-> m = s.
Proof.
  revert m. induction s as [|c s IH]; intros m; simpl.
  - apply lang_Eps.
  - rewrite lang_Cat. split.
    + intros (m1 & m2 & -> & H1 & H2).
      apply lang_Chr in H1. apply IH in H2. now subst.
    + intros ->. exists (String c ""), s. repeat split.
      * now apply lang_Chr.
      * now apply IH.
Qed.

Lemma lang_Star_Class (cls : list (ascii * ascii)) (m : string) :
  lang (Star (Class cls)) m <->
  Str.all_chars (fun c => in_class c cls) m = true.
Proof.
  split.
  - intros H. remember (Star (Class cls)) as r eqn:Er.
    induction H as [| | | | | |r1 s1 s2 H1 _ H2 IH2]; try discriminate.
    + reflexivity.
    + injection Er as ->. inversion H1; subst. simpl.
      rewrite IH2 by reflexivity. now rewrite andb_true_r.
  - induction m as [|c m IH]; simpl; intros H.
    + constructor.
    + apply andb_true_iff in H as [Hc Hm].
      change (String c m) with (String c "" ++ m)%string.
      constructor; [now constructor|auto].
Qed.

Lemma lang_Plus_Class (cls : list (ascii * ascii)) (m : string) :
  lang (Plus (Class cls)) m <->
  m <> "" /\ Str.all_chars (fun c => in_class c cls) m = true.
Proof.
  unfold Plus. rewrite lang_Cat. split.
  - intros (m1 & m2 & -> & H1 & H2).
    inversion H1 as [|cls' c Hc| | | | |]; subst.
    apply lang_Star_Class in H2. simpl. split; [discriminate|].
    now rewrite Hc, H2.
  - intros [Hne H]. destruct m as [|c m]; [congruence|].
    simpl in H. apply andb_true_iff in H as [Hc Hm].
    exists (String c ""), m. repeat split.
    + now constructor.
    + now apply lang_Star_Class.
Qed.

End RegexFacts.
(* ================================================================== *)
(** * Facts about the cache storage *)
(* ================================================================== *)

Module StoreFacts.
Import Store.

Lemma lookup_nonempty_has (s : CacheStorage) (name : string) :
  lookup s name <> [] -> has_cache s name = true.
Proof.
  unfold lookup, has_cache.
  induction s as [|[n c] s IH]; simpl; intros H.
  - now elim H.
  - destruct (String.eqb n name); simpl; auto.
Qed.

Lemma ensure_has (s : CacheStorage) (name : string) :
  has_cache s name = true -> ensure s name = s.
Proof. unfold ensure. now intros ->. Qed.

Lemma lookup_app_absent (s : CacheStorage) (name other : string) :
  has_cache s name = false ->
  lookup (s ++ [(name, [])]) other = lookup s other.
Proof.
  unfold lookup, has_cache.
  induction s as [|[n c] s IH]; simpl; intros H.
  - destruct (String.eqb name other); reflexivity.
  - apply orb_false_iff in H as [_ H].
    destruct (String.eqb n other); simpl; auto.
Qed.

Lemma lookup_ensure (s : CacheStorage) (name other : string) :
  lookup (ensure s name) other = lookup s other.
Proof.
  unfold ensure. destruct (has_cache s name) eqn:E; auto.
  now apply lookup_app_absent.
Qed.

Lemma has_cache_ensure (s : CacheStorage) (name : string) :
  has_cache (ensure s name) name = true.
Proof.
  unfold ensure. destruct (has_cache s name) eqn:E; auto.
  unfold has_cache. rewrite existsb_app. simpl.
  rewrite String.eqb_refl. now rewrite orb_true_r.
Qed.

Lemma lookup_update_same (s : CacheStorage) (name : string) f :
  has_cache s name = true ->
  lookup (update s name f) name = f (lookup s name).
Proof.
  unfold lookup, has_cache.
  induction s as [|[n c] s IH]; simpl; intros H; [discriminate|].
  destruct (String.eqb n name) eqn:E; simpl; rewrite E; auto.
Qed.

Lemma lookup_update_other (s : CacheStorage) (name other : string) f :
  other <> name ->
  lookup (update s name f) other = lookup s other.
Proof.
  unfold lookup. intros D.
  induction s as [|[n c] s IH]; simpl; auto.
  destruct (String.eqb n name) eqn:E; simpl.
  - apply String.eqb_eq in E. subst n.
    destruct (String.eqb name other) eqn:E'; auto.
    apply String.eqb_eq in E'. congruence.
  - destruct (String.eqb n other); auto.
Qed.

Lemma has_cache_update (s : CacheStorage) (name other : string) f :
  has_cache (update s name f) other = has_cache s other.
Proof.
  unfold has_cache.
  induction s as [|[n c] s IH]; simpl; auto.
  destruct (String.eqb n name); simpl; auto. now rewrite IH.
Qed.

Lemma names_update (s : CacheStorage) (name : string) f :
  names (update s name f) = names s.
Proof.
  unfold names.
  induction s as [|[n c] s IH]; simpl; auto.
  destruct (String.eqb n name); simpl; auto. now rewrite IH.
Qed.

(** [update] only looks at the cache it changes. *)
Lemma update_ext (s : CacheStorage) (name : string) f g :
  f (lookup s name) = g (lookup s name) ->
  update s name f = update s name g.
Proof.
  unfold lookup.
  induction s as [|[n c] s IH]; simpl; auto.
  destruct (String.eqb n name); simpl; intros H.
  - now rewrite H.
  - now rewrite IH.
Qed.

Lemma update_update (s : CacheStorage) (name : string) f g :
  update (update s name f) name g = update s name (fun c => g (f c)).
Proof.
  induction s as [|[n c] s IH]; simpl; auto.
  destruct (String.eqb n name) eqn:E; simpl; rewrite E; auto.
  now rewrite IH.
Qed.

Lemma update_id (s : CacheStorage) (name : string) f :
  f (lookup s name) = lookup s name -> update s name f = s.
Proof.
  unfold lookup.
  induction s as [|[n c] s IH]; simpl; auto.
  destruct (String.eqb n name); simpl; intros H.
  - now rewrite H.
  - now rewrite IH.
Qed.

(** With distinct keys, removing the first key removes the first entry. *)
Lemma entry_remove_head (k : string) (v : Response) (c : Cache) :
  NoDup (keys ((k, v) :: c)) -> entry_remove ((k, v) :: c) k = c.
Proof.
  unfold keys, entry_remove. simpl. intros H.
  inversion H as [|? ? Hnot _]; subst.
  rewrite String.eqb_refl. simpl.
  clear H. induction c as [|[k' v'] c IH]; simpl; auto.
  simpl in Hnot.
  destruct (String.eqb k' k) eqn:E.
  - apply String.eqb_eq in E. subst. tauto.
  - simpl. f_equal. apply IH. tauto.
Qed.

Lemma entry_remove_length (c : Cache) (u : string) :
  List.length (entry_remove c u) <= List.length c.
Proof. unfold entry_remove. apply filter_length_le. Qed.

Lemma entry_remove_head_length (k : string) (v : Response) (c : Cache) :
  List.length (entry_remove ((k, v) :: c) k) <= List.length c.
Proof.
  unfold entry_remove. simpl. rewrite String.eqb_refl. simpl.
  apply filter_length_le.
Qed.

(** ** Distinct keys are kept by the operations on a cache *)

Lemma keys_entry_remove (c : Cache) (u : string) :
  keys (entry_remove c u) =
  filter (fun k => negb (String.eqb k u)) (keys c).
Proof.
  unfold keys, entry_remove.
  induction c as [|[k v] c IH]; simpl; auto.
  destruct (String.eqb k u); simpl; now rewrite IH.
Qed.

Lemma entry_remove_NoDup (c : Cache) (u : string) :
  NoDup (keys c) -> NoDup (keys (entry_remove c u)).
Proof. rewrite keys_entry_remove. apply NoDup_filter. Qed.

Lemma entry_put_NoDup (c : Cache) (u : string) (r : Response) :
  NoDup (keys c) -> NoDup (keys (entry_put c u r)).
Proof.
  intros H. unfold entry_put, keys. rewrite map_app. simpl.
  apply NoDup_app.
  - now apply entry_remove_NoDup.
  - repeat constructor. simpl. tauto.
  - intros k Hk [<-|[]]. fold (keys (entry_remove c u)) in Hk.
    rewrite keys_entry_remove in Hk. apply filter_In in Hk as [_ Hk].
    now rewrite String.eqb_refl in Hk.
Qed.

End StoreFacts.

(* ================================================================== *)
(** * Running asynchronous computations *)
(* ================================================================== *)

(** Unfolds the monad and the platform operations on a world given by its
    fields. *)
Ltac run_async :=
  cbv beta iota zeta delta
    [bind ret throw try_catch async fetch emit log await get_caches
     modify_caches caches_match caches_keys caches_open cache_put
     cache_keys timer_reject clients_matchAll postMessage clients_claim
     skipWaiting caches now trace fst snd].

Lemma bind_val {A B} (m : M A) (k : A -> M B) w w' a :
  m w = (w', Val a) -> bind m k w = k a w'.
Proof. unfold bind. now intros ->. Qed.

Lemma try_catch_val {A} (m : M A) h w w' a :
  m w = (w', Val a) -> try_catch m h w = (w', Val a).
Proof. unfold try_catch. now intros ->. Qed.


Lemma race_rejects_rejects {A} (tie : bool) d e d' e' :
  exists d'' e'', race tie (@Rejects A d e) (Rejects d' e') = Rejects d'' e''.
Proof.
  unfold race. simpl.
  destruct (d <? d'), (d' <? d), tie; eauto.
Qed.

Lemma race_timer_first {A} (tie : bool) (p q : promise A) d dq :
  settles_at p = Some d -> settles_at q = Some dq -> dq < d ->
  race tie p q = q.
Proof.
  unfold race. intros -> -> H.
  replace (d <? dq) with false by (symmetry; apply Nat.ltb_ge; lia).
  replace (dq <? d) with true by (symmetry; apply Nat.ltb_lt; lia).
  reflexivity.
Qed.

Lemma race_network_first {A} (tie : bool) (p q : promise A) d dq :
  settles_at p = Some d -> settles_at q = Some dq -> d < dq ->
  race tie p q = p.
Proof.
  unfold race. intros -> -> H.
  replace (d <? dq) with true by (symmetry; apply Nat.ltb_lt; lia).
  reflexivity.
Qed.

Lemma race_never {A} (tie : bool) (q : promise A) :
  race tie Never q = q.
Proof. reflexivity. Qed.
(* ================================================================== *)
(** * The cache trimmer *)
(* ================================================================== *)

Section TrimFacts.
Import Store StoreFacts.
Variable env : Env.
Variable cacheName : string.
Variable maxItems : nat.

Lemma trimCache_rec_unfold (fuel : nat) (w : World) :
  trimCache_rec env (S fuel) cacheName maxItems w =
  if open_fails env cacheName
  then (mkWorld (caches w) (now w)
          (trace w ++ [EvLog ("Error trimming " ++ cacheName ++ " cache")]),
        Val tt)
  else
    let s1 := ensure (caches w) cacheName in
    let ks := keys (lookup s1 cacheName) in
    if maxItems <? List.length ks then
      try_catch (trimCache_rec env fuel cacheName maxItems) (fun _ => log ("Error trimming " ++ cacheName ++ " cache"))
        (mkWorld (update s1 cacheName
                    (fun c => entry_remove c (hd "undefined" ks)))
                 (now w)
                 (trace w ++ [EvEntryDelete cacheName (hd "undefined" ks)]))
    else (mkWorld s1 (now w) (trace w), Val tt).
Proof.
  simpl. unfold try_catch at 1, bind at 1, caches_open.
  destruct (open_fails env cacheName); [reflexivity|].
  cbn -[trimCache_rec ensure lookup update String.append Nat.ltb keys hd List.length].
  match goal with |- context [maxItems <? ?n] => destruct (maxItems <? n) end;
    reflexivity.
Qed.

(** A call with fuel for one call more than there are entries returns. *)
Lemma trimCache_rec_fuel (fuel : nat) : forall w : World,
  List.length (lookup (caches w) cacheName) < fuel ->
  exists w', trimCache_rec env fuel cacheName maxItems w = (w', Val tt).
Proof.
  induction fuel as [|fuel IH]; intros w Hlen; [lia|].
  rewrite trimCache_rec_unfold.
  destruct (open_fails env cacheName); [eauto|].
  cbv zeta. rewrite lookup_ensure.
  destruct (maxItems <? _) eqn:E; [|eauto].
  apply Nat.ltb_lt in E.
  destruct (lookup (caches w) cacheName) as [|[k v] c] eqn:Ec;
    [simpl in E; lia|].
  edestruct IH as [w' Hw']; [|eexists; apply try_catch_val; exact Hw'].
  cbn [caches]. rewrite lookup_update_same by apply has_cache_ensure.
  rewrite lookup_ensure, Ec. cbn [keys map fst hd].
  pose proof (entry_remove_head_length k v c).
  simpl in Hlen. lia.
Qed.

(** With distinct keys, trimming a cache of [maxItems + k] entries deletes
    its first [k] keys, oldest first, and nothing else. *)
Lemma trimCache_rec_spec (k : nat) : forall (fuel : nat) (w : World),
  open_fails env cacheName = false ->
  NoDup (keys (lookup (caches w) cacheName)) ->
  List.length (lookup (caches w) cacheName) = maxItems + k ->
  k < fuel ->
  trimCache_rec env fuel cacheName maxItems w =
  (mkWorld (update (ensure (caches w) cacheName) cacheName (skipn k))
           (now w)
           (trace w ++ map (EvEntryDelete cacheName)
                         (firstn k (keys (lookup (caches w) cacheName)))),
   Val tt).
Proof.
  induction k as [|k IH]; intros fuel w Hopen Hnd Hlen Hfuel;
    (destruct fuel as [|fuel]; [lia|]);
    rewrite trimCache_rec_unfold, Hopen; cbv zeta; rewrite lookup_ensure.
  - replace (maxItems <? _) with false
      by (symmetry; apply Nat.ltb_ge; unfold keys; rewrite length_map; lia).
    cbn [firstn map]. rewrite app_nil_r.
    rewrite update_id by reflexivity. reflexivity.
  - replace (maxItems <? _) with true
      by (symmetry; apply Nat.ltb_lt; unfold keys; rewrite length_map; lia).
    destruct (lookup (caches w) cacheName) as [|[k0 v0] c] eqn:Ec;
      [simpl in Hlen; lia|].
    cbn [keys map fst hd].
    assert (Hc : lookup (update (ensure (caches w) cacheName) cacheName
                   (fun c1 => entry_remove c1 k0)) cacheName = c).
    { rewrite lookup_update_same by apply has_cache_ensure.
      rewrite lookup_ensure, Ec. now apply entry_remove_head. }
    erewrite try_catch_val.
    2:{ apply IH; cbn [caches]; auto.
        - rewrite Hc. now inversion Hnd.
        - rewrite Hc. simpl in Hlen. lia.
        - lia. }
    cbn [caches now trace]. rewrite Hc.
    rewrite ensure_has
      by (rewrite has_cache_update; apply has_cache_ensure).
    rewrite update_update. f_equal. f_equal.
    + apply update_ext. rewrite lookup_ensure, Ec.
      rewrite entry_remove_head by exact Hnd. reflexivity.
    + rewrite <- app_assoc. reflexivity.
Qed.

(** The fuel [trimCache] gives its loop is enough: it always returns. *)
Lemma trimCache_returns (w : World) :
  exists w', trimCache env cacheName maxItems w = (w', Val tt).
Proof. unfold trimCache. apply trimCache_rec_fuel. lia. Qed.

(** C4. A cache with distinct keys that holds more than [maxItems] entries
    is cut down to exactly [maxItems]: the call returns, the entries that
    stay are the last [maxItems] in insertion order, and the deleted keys
    are the oldest ones, deleted one by one from the oldest on.  Other
    caches are left alone. *)
Theorem trimCache_keeps_newest (w : World) :
  let c := lookup (caches w) cacheName in
  open_fails env cacheName = false ->
  NoDup (keys c) ->
  maxItems < List.length c ->
  exists w',
    trimCache env cacheName maxItems w = (w', Val tt) /\
    lookup (caches w') cacheName = skipn (List.length c - maxItems) c /\
    List.length (lookup (caches w') cacheName) = maxItems /\
    trace w' = trace w ++ map (EvEntryDelete cacheName)
                            (firstn (List.length c - maxItems) (keys c)) /\
    (forall other, other <> cacheName ->
       lookup (caches w') other = lookup (caches w) other) /\
    names (caches w') = names (caches w).
Proof.
  intros c Hopen Hnd Hlen. subst c.
  set (c := lookup (caches w) cacheName) in *.
  assert (Hhas : has_cache (caches w) cacheName = true).
  { apply lookup_nonempty_has. fold c. destruct c; simpl in *; [lia|easy]. }
  eexists. split.
  - unfold trimCache. fold c.
    apply (trimCache_rec_spec (k := List.length c - maxItems));
      auto; fold c; lia.
  - cbn [caches trace]. rewrite (ensure_has _ _ Hhas). fold c.
    repeat split.
    + now rewrite lookup_update_same.
    + rewrite lookup_update_same by auto. fold c.
      rewrite length_skipn. lia.
    + intros other Hother. now apply lookup_update_other.
    + apply names_update.
Qed.

(** C9. When the cache holds at most [maxItems] entries, [trimCache]
    returns without deleting: no cache changes its entries, no delete is
    issued, and a cache storage that already has the cache is returned as
    it was. *)
Theorem trimCache_within_bound_unchanged (w : World) :
  List.length (lookup (caches w) cacheName) <= maxItems ->
  exists w',
    trimCache env cacheName maxItems w = (w', Val tt) /\
    (forall name, lookup (caches w') name = lookup (caches w) name) /\
    (exists tr, trace w' = trace w ++ tr /\
                forall name u, ~ In (EvEntryDelete name u) tr) /\
    (has_cache (caches w) cacheName = true -> caches w' = caches w).
Proof.
  intros Hlen. unfold trimCache. rewrite trimCache_rec_unfold.
  destruct (open_fails env cacheName).
  - eexists. split; [reflexivity|]. cbn [caches trace]. repeat split; auto.
    eexists. split; [reflexivity|].
    intros name u [H|[]]. discriminate.
  - cbv zeta. rewrite lookup_ensure.
    replace (maxItems <? _) with false
      by (symmetry; apply Nat.ltb_ge; unfold keys; rewrite length_map; lia).
    eexists. split; [reflexivity|]. cbn [caches trace]. repeat split.
    + intros name. apply lookup_ensure.
    + exists []. split; [now rewrite app_nil_r|]. intros ? ? [].
    + apply ensure_has.
Qed.

End TrimFacts.

(* ================================================================== *)
(** * The image test of the generic strategy *)
(* ================================================================== *)

Section ImageTest.
Import Regex RegexFacts StrFacts.

Lemma lang_imagePattern (m : string) :
  lang imagePattern m <-> In m imageSubstrings.
Proof.
  split.
  - unfold imagePattern. rewrite lang_Cat.
    intros (m1 & m2 & -> & H1 & H2). apply lang_Chr in H1. subst m1.
    repeat rewrite lang_Alt in H2.
    rewrite lang_Cat in H2. rewrite !lang_Lit in H2.
    destruct H2 as [(a & b & -> & Ha & H) | [-> | [-> | [-> | ->]]]];
      simpl; auto 10.
    apply lang_Lit in Ha. subst a.
    apply lang_Cat in H as (o & g & -> & Ho & Hg).
    apply lang_Chr in Hg. apply lang_Opt in Ho. rewrite lang_Chr in Ho.
    subst g. destruct Ho as [-> | ->]; simpl; auto.
  - intros H. apply matches_iff.
    simpl in H. decompose [or] H; subst; try reflexivity. contradiction.
Qed.

(** The test of the source is the substring test of the specification. *)
Lemma isImageUrl_iff (u : string) :
  isImageUrl u = true <->
  exists ext, In ext imageSubstrings /\ Str.occurs ext u.
Proof.
  unfold isImageUrl. rewrite test_iff.
  split; intros (m & H1 & H2); exists m; split; auto;
    now apply lang_imagePattern.
Qed.

End ImageTest.

Section GenericFacts.
Variable cfg : Config.
Variable env : Env.

(** What the generic strategy returns does not depend on the caches being
    writable: a cached entry if there is one, else the fetched response. *)
Lemma generic_returns_fetched (event : FetchEvent) (w : World) d r :
  let u := url (request event) in
  net env u = Fulfils d r ->
  snd (genericStrategy cfg env event w) =
  Val (match Store.match_any (caches w) u with
       | Some c => c
       | None => r
       end).
Proof.
  intros u Hnet. subst u. destruct w as [s n t].
  unfold genericStrategy. run_async. rewrite Hnet.
  destruct (isImageUrl (url (request event)));
    [destruct (open_fails env imageCacheName); run_async;
     [|destruct (put_fails env imageCacheName (url (request event)))]|];
    run_async;
    destruct (Store.match_any s (url (request event))); reflexivity.
Qed.

(** A successful fetch is written into [images] exactly when the URL
    passes the image test. *)
Lemma generic_stores_images (event : FetchEvent) (w : World) d r :
  let u := url (request event) in
  net env u = Fulfils d r ->
  open_fails env imageCacheName = false ->
  put_fails env imageCacheName u = false ->
  caches (fst (genericStrategy cfg env event w)) =
    if isImageUrl u
    then Store.update (Store.ensure (caches w) imageCacheName)
           imageCacheName (fun c => Store.entry_put c u r)
    else caches w.
Proof.
  intros u Hnet Hopen Hput. subst u. destruct w as [s n t].
  unfold genericStrategy. run_async. rewrite Hnet.
  destruct (isImageUrl (url (request event)));
    [rewrite Hopen; run_async; rewrite Hput|];
    destruct (Store.match_any s (url (request event))); reflexivity.
Qed.

(** With no cached entry and a fetch that fails, the image test chooses
    between the placeholder and the 503 response. *)
Lemma generic_offline_fallback (event : FetchEvent) (w : World) d e :
  let u := url (request event) in
  Store.match_any (caches w) u = None ->
  net env u = Rejects d e ->
  snd (genericStrategy cfg env event w) =
  Val (if isImageUrl u then placeholderResponse cfg
       else networkErrorResponse).
Proof.
  intros u Hmiss Hnet. subst u. destruct w as [s n t].
  cbn [caches] in Hmiss.
  unfold genericStrategy. run_async. rewrite Hnet, Hmiss.
  destruct (isImageUrl (url (request event))); reflexivity.
Qed.

(** C10. In the generic strategy a URL is an image exactly when one of
    [.jpg], [.jpeg], [.png], [.gif], [.svg], [.webp] occurs somewhere in
    it, and that one test decides both whether a fetched response is
    written into [images] and what is answered when nothing is cached
    and the fetch failed: for an image the placeholder, a 200 response
    of type [image/svg+xml], never stored, whose body is the inline SVG;
    for anything else the 503 "Service Unavailable" response of type
    [text/plain] with body "Network error".  The two responses differ:
    the placeholder is an ok response, the 503 is not. *)
Theorem generic_image_test (event : FetchEvent) (w : World) :
  let u := url (request event) in
  let placeholder :=
    mkResponse 200 ""
               [("Content-Type", "image/svg+xml"); ("Cache-Control", "no-store")]
               (placeholderImage cfg) in
  let unavailable :=
    mkResponse 503 "Service Unavailable"
               [("Content-Type", "text/plain")] "Network error" in
  (isImageUrl u = true <->
   exists ext, In ext imageSubstrings /\ Str.occurs ext u) /\
  (forall d r,
     net env u = Fulfils d r ->
     open_fails env imageCacheName = false ->
     put_fails env imageCacheName u = false ->
     caches (fst (genericStrategy cfg env event w)) =
       if isImageUrl u
       then Store.update (Store.ensure (caches w) imageCacheName)
              imageCacheName (fun c => Store.entry_put c u r)
       else caches w) /\
  (forall d e,
     Store.match_any (caches w) u = None ->
     net env u = Rejects d e ->
     snd (genericStrategy cfg env event w) =
     Val (if isImageUrl u then placeholder else unavailable)) /\
  placeholder <> unavailable /\
  response_ok placeholder = true /\
  response_ok unavailable = false.
Proof.
  intros u placeholder unavailable.
  split; [apply isImageUrl_iff|]. split; [|split; [|split; [|split]]].
  - intros d r. apply generic_stores_images.
  - intros d e Hmiss Hnet.
    rewrite (generic_offline_fallback event w Hmiss Hnet). reflexivity.
  - intros Heq. apply (f_equal status) in Heq. discriminate Heq.
  - reflexivity.
  - reflexivity.
Qed.

End GenericFacts.

(* ================================================================== *)
(** * The navigation strategy *)
(* ================================================================== *)

Section NavigationFacts.
Variable cfg : Config.
Variable env : Env.

(** Calling [networkFetch] issues the fetch, if one is needed, and yields
    the promise [networkOutcome]. *)
Lemma networkFetch_async (event : FetchEvent) s n t :
  async (networkFetch env event) (mkWorld s n t) =
  (mkWorld s n (t ++ navigationFetches event),
   Val (networkOutcome env event)).
Proof.
  unfold networkFetch, networkOutcome, navigationFetches.
  destruct (preloadResponse event) as [|d [r|]|d e]; run_async;
    rewrite ?app_nil_r, ?Nat.add_sub_swap, ?Nat.sub_diag by lia;
    try reflexivity.
  destruct (net env (url (request event))); run_async;
    try reflexivity; do 3 f_equal; lia.
Qed.

(** The strategy, case by case on what it awaits. *)
Lemma navigationStrategy_spec (event : FetchEvent) s n t :
  let u := url (request event) in
  let cached := Store.match_any s u in
  let t1 := t ++ navigationFetches event ++
            match cached with
            | Some _ => [EvTimerStart timeout]
            | None => []
            end in
  navigationStrategy cfg env event (mkWorld s n t) =
  match awaitedByNavigation env cached (networkOutcome env event) with
  | Never => (mkWorld s n t1, Pending)
  | Fulfils d r => (pageWrite env s (n + d) t1 u r, Val r)
  | Rejects d e =>
      (mkWorld s (n + d) t1, Val (navigationFallback cfg s cached))
  end.
Proof.
  intros u cached t1. unfold navigationStrategy.
  erewrite bind_val by reflexivity.
  erewrite bind_val by apply networkFetch_async.
  fold u. cbn [caches]. fold cached. subst t1.
  unfold awaitedByNavigation, navigationFallback, pageWrite, timeoutPromise.
  destruct cached as [c|].
  - run_async.
    destruct (race (timer_wins_tie env) (networkOutcome env event)
                (Rejects timeout NetworkTimeout)) as [|d r|d e].
    + rewrite <- app_assoc. reflexivity.
    + destruct (open_fails env pagesCacheName); run_async;
        [|destruct (put_fails env pagesCacheName u)]; run_async;
        rewrite <- ?app_assoc; reflexivity.
    + rewrite <- app_assoc. reflexivity.
  - run_async. rewrite app_nil_r.
    destruct (networkOutcome env event) as [|d r|d e].
    + reflexivity.
    + destruct (open_fails env pagesCacheName); run_async;
        [|destruct (put_fails env pagesCacheName u)]; run_async;
        reflexivity.
    + destruct (Store.match_any s (resolve cfg "/offline")); reflexivity.
Qed.

Lemma pageWrite_now s n t u r : now (pageWrite env s n t u r) = n.
Proof.
  unfold pageWrite.
  destruct (open_fails env pagesCacheName); auto.
  destruct (put_fails env pagesCacheName u); auto.
Qed.

Lemma pageWrite_trace s n t u r :
  exists l, trace (pageWrite env s n t u r) = t ++ l /\
            forall ms, ~ In (EvTimerStart ms) l.
Proof.
  unfold pageWrite.
  destruct (open_fails env pagesCacheName);
    [|destruct (put_fails env pagesCacheName u)]; cbn [trace].
  - eexists. split; [reflexivity|]. intros ms [H|[]]. discriminate.
  - eexists. split; [reflexivity|]. intros ms [H|[]]. discriminate.
  - exists []. split; [now rewrite app_nil_r|]. intros ms [].
Qed.

(** Whatever happens to the write into [pages], a fetched response that
    is awaited is the response returned. *)
Lemma navigation_returns_fetched (event : FetchEvent) (w : World) d r :
  awaitedByNavigation env
    (Store.match_any (caches w) (url (request event)))
    (networkOutcome env event) = Fulfils d r ->
  snd (navigationStrategy cfg env event w) = Val r.
Proof.
  destruct w as [s n t]. intros H.
  rewrite navigationStrategy_spec. cbv zeta. cbn [caches] in H.
  now rewrite H.
Qed.

Lemma navigation_trace (event : FetchEvent) (w : World) :
  exists l,
    trace (fst (navigationStrategy cfg env event w)) =
      trace w ++ navigationFetches event ++
      match Store.match_any (caches w) (url (request event)) with
      | Some _ => [EvTimerStart timeout]
      | None => []
      end ++ l /\
    forall ms, ~ In (EvTimerStart ms) l.
Proof.
  destruct w as [s n t]. rewrite navigationStrategy_spec. cbv zeta.
  cbn [caches trace].
  destruct (awaitedByNavigation _ _ _) as [|d r|d e]; cbn [fst trace].
  - exists []. rewrite app_nil_r. split; auto.
  - destruct (pageWrite_trace s (n + d)
                (t ++ navigationFetches event ++
                 match Store.match_any s (url (request event)) with
                 | Some _ => [EvTimerStart timeout]
                 | None => []
                 end) (url (request event)) r) as (l & Hl & Hno).
    exists l. rewrite Hl, <- !app_assoc. split; auto.
  - exists []. rewrite app_nil_r. split; auto.
Qed.

Lemma navigationFetches_no_timer (event : FetchEvent) ms :
  ~ In (EvTimerStart ms) (navigationFetches event).
Proof.
  unfold navigationFetches.
  destruct (preloadResponse event) as [|d [r|]|d e]; simpl; try tauto.
  intros [H|[]]. discriminate.
Qed.

(** C3. A navigation with a cached entry starts the 5000 ms timer and
    races the network fetch against it: a fetch that settles first decides
    (its response, or on failure the cached entry), and when the timer is
    first, or the fetch never settles, the cached entry is returned at
    5000 ms.  A navigation without a cached entry starts no timer and
    awaits the fetch alone: it returns nothing while the fetch is pending,
    and whatever it returns, the fetched response or a fallback, it
    returns at the moment the fetch settles. *)
Theorem navigation_timer_only_with_cached_entry
    (event : FetchEvent) (w : World) :
  let cached := Store.match_any (caches w) (url (request event)) in
  let p := networkOutcome env event in
  let out := navigationStrategy cfg env event w in
  (forall c, cached = Some c ->
     (exists tr, trace (fst out) = trace w ++ tr /\
                 In (EvTimerStart 5000) tr) /\
     (forall d, settles_at p = Some d -> d < 5000 ->
        now (fst out) = now w + d /\
        snd out = Val (match p with Fulfils _ r => r | _ => c end)) /\
     (forall d, settles_at p = Some d -> 5000 < d ->
        now (fst out) = now w + 5000 /\ snd out = Val c) /\
     (p = Never -> now (fst out) = now w + 5000 /\ snd out = Val c)) /\
  (cached = None ->
     (exists tr, trace (fst out) = trace w ++ tr /\
                 forall ms, ~ In (EvTimerStart ms) tr) /\
     (p = Never -> snd out = Pending) /\
     (forall d r, p = Fulfils d r ->
        now (fst out) = now w + d /\ snd out = Val r) /\
     (forall d e, p = Rejects d e ->
        now (fst out) = now w + d /\
        snd out = Val (navigationFallback cfg (caches w) None))).
Proof.
  intros cached p out. split.
  - intros c Hc. split; [|split; [|split]].
    + destruct (navigation_trace event w) as (l & Hl & _).
      fold cached in Hl. rewrite Hc in Hl. eexists. split; [exact Hl|].
      rewrite !in_app_iff. right. left. now left.
    + intros d Hd Hlt. subst out. destruct w as [s n t].
      rewrite navigationStrategy_spec. cbv zeta. cbn [caches] in *.
      fold cached p. rewrite Hc. cbn [awaitedByNavigation].
      rewrite (race_network_first _ p timeoutPromise Hd (dq := timeout))
        by (reflexivity || exact Hlt).
      destruct p as [|d' r|d' e]; try discriminate; injection Hd as ->;
        cbn [fst snd now]; [rewrite pageWrite_now|]; auto.
    + intros d Hd Hlt. subst out. destruct w as [s n t].
      rewrite navigationStrategy_spec. cbv zeta. cbn [caches] in *.
      fold cached p. rewrite Hc. cbn [awaitedByNavigation].
      rewrite (race_timer_first _ p timeoutPromise Hd (dq := timeout))
        by (reflexivity || exact Hlt).
      cbn. auto.
    + intros Hp. subst out. destruct w as [s n t].
      rewrite navigationStrategy_spec. cbv zeta. cbn [caches] in *.
      fold cached p. rewrite Hc, Hp. cbn. auto.
  - intros Hc. split; [|split; [|split]].
    + destruct (navigation_trace event w) as (l & Hl & Hno).
      fold cached in Hl. rewrite Hc in Hl. eexists. split; [exact Hl|].
      intros ms. rewrite !in_app_iff. intros [H|[[]|H]].
      * now apply navigationFetches_no_timer in H.
      * now apply Hno in H.
    + intros Hp. subst out. destruct w as [s n t].
      rewrite navigationStrategy_spec. cbv zeta. cbn [caches] in *.
      fold cached p. rewrite Hc, Hp. reflexivity.
    + intros d r Hp. subst out. destruct w as [s n t].
      rewrite navigationStrategy_spec. cbv zeta. cbn [caches] in *.
      fold cached p. rewrite Hc, Hp. cbn [awaitedByNavigation fst snd].
      now rewrite pageWrite_now.
    + intros d e Hp. subst out. destruct w as [s n t].
      rewrite navigationStrategy_spec. cbv zeta. cbn [caches] in *.
      fold cached p. rewrite Hc, Hp. cbn [awaitedByNavigation fst snd now].
      auto.
Qed.

Lemma awaited_rejects (cached : option Response) (p : promise Response) :
  (exists d e, p = Rejects d e) \/
  (cached <> None /\
   race (timer_wins_tie env) p timeoutPromise = timeoutPromise) ->
  exists d e, awaitedByNavigation env cached p = Rejects d e.
Proof.
  unfold awaitedByNavigation.
  intros [(d & e & ->)|[Hc Hr]].
  - destruct cached; [apply race_rejects_rejects|eauto].
  - destruct cached; [|congruence]. rewrite Hr. unfold timeoutPromise. eauto.
Qed.

(** C7. When the network fetch of a navigation fails, or the timer wins
    the race, the strategy returns the cached entry if there is one, else
    the cached offline page if there is one, else the plain-text 503
    response; in every case it returns a response and throws nothing. *)
Theorem navigation_fallback_chain (event : FetchEvent) (w : World) :
  let cached := Store.match_any (caches w) (url (request event)) in
  let p := networkOutcome env event in
  let out := navigationStrategy cfg env event w in
  (exists d e, p = Rejects d e) \/
  (cached <> None /\
   race (timer_wins_tie env) p timeoutPromise = timeoutPromise) ->
  (forall c, cached = Some c -> snd out = Val c) /\
  (cached = None ->
   forall o, Store.match_any (caches w) (resolve cfg "/offline") = Some o ->
   snd out = Val o) /\
  (cached = None ->
   Store.match_any (caches w) (resolve cfg "/offline") = None ->
   snd out = Val offlineResponse) /\
  status offlineResponse = 503 /\
  headers offlineResponse = [("Content-Type", "text/plain")] /\
  (exists r, snd out = Val r).
Proof.
  intros cached p out H.
  apply awaited_rejects in H as (d & e & H).
  assert (Hout : snd out = Val (navigationFallback cfg (caches w) cached)).
  { subst out. destruct w as [s n t].
    rewrite navigationStrategy_spec. cbv zeta. cbn [caches] in *.
    fold cached p. now rewrite H. }
  rewrite Hout. unfold navigationFallback.
  repeat split; eauto.
  - now intros c ->.
  - now intros -> o ->.
  - now intros -> ->.
Qed.

End NavigationFacts.

(* ================================================================== *)
(** * The router and the hashed-asset strategy *)
(* ================================================================== *)

Section AssetFacts.
Import Store.
Variable cfg : Config.
Variable env : Env.

Lemma entry_match_put (c : Cache) (u : string) (r : Response) :
  entry_match c u = None -> entry_match (entry_put c u r) u = Some r.
Proof.
  unfold entry_match, entry_put, entry_remove.
  induction c as [|[k v] c IH]; simpl.
  - now rewrite String.eqb_refl.
  - destruct (String.eqb k u) eqn:E; simpl; [discriminate|].
    rewrite E. auto.
Qed.

(** After a write into any cache, a URL that no cache held is found. *)
Lemma match_any_after_put (s : CacheStorage) (name u : string)
    (r : Response) :
  match_any s u = None ->
  match_any (update (ensure s name) name (fun c => entry_put c u r)) u
  = Some r.
Proof.
  induction s as [|[n c] s IH]; intros H.
  - unfold ensure. cbn. rewrite String.eqb_refl. cbn.
    change [(u, r)] with (entry_put [] u r). now rewrite entry_match_put.
  - cbn [match_any] in H.
    destruct (entry_match c u) eqn:Ec; [discriminate|].
    unfold ensure. cbn [has_cache existsb fst].
    destruct (String.eqb n name) eqn:En; cbn [orb].
    + cbn [update]. rewrite En. cbn [match_any].
      now rewrite entry_match_put.
    + specialize (IH H). unfold ensure in IH. fold (has_cache s name).
      destruct (has_cache s name); cbn [app update]; rewrite En;
        cbn [match_any]; now rewrite Ec.
Qed.

(** The pattern of the source, spelled out: the URL ends with
    [/assets/app-], one or more characters among [a]-[f] and [0]-[9], a
    dot, and [js] or [css]. *)
Lemma isHashedAsset_iff (u : string) :
  isHashedAsset u = true <->
  exists before digest ext,
    u = (before ++ "/assets/app-" ++ digest ++ "." ++ ext)%string /\
    digest <> "" /\
    Str.all_chars (fun c => Regex.in_class c hexDigit) digest = true /\
    (ext = "js" \/ ext = "css").
Proof.
  unfold isHashedAsset, hashedAssetPattern.
  rewrite RegexFacts.test_to_end_iff. split.
  - intros (a & m & -> & H).
    apply RegexFacts.lang_Cat in H as (m1 & m2 & -> & H1 & H).
    apply RegexFacts.lang_Lit in H1. subst m1.
    apply RegexFacts.lang_Cat in H as (dg & m3 & -> & Hd & H).
    apply RegexFacts.lang_Plus_Class in Hd as [Hne Hd].
    apply RegexFacts.lang_Cat in H as (dot & ext & -> & Hdot & H).
    apply RegexFacts.lang_Chr in Hdot. subst dot.
    apply RegexFacts.lang_Alt in H. rewrite !RegexFacts.lang_Lit in H.
    exists a, dg, ext. auto.
  - intros (a & dg & ext & -> & Hne & Hd & Hext).
    exists a, ("/assets/app-" ++ dg ++ "." ++ ext)%string. split; auto.
    apply RegexFacts.lang_Cat. exists "/assets/app-", (dg ++ "." ++ ext)%string.
    split; [reflexivity|]. split; [now apply RegexFacts.lang_Lit|].
    apply RegexFacts.lang_Cat. exists dg, ("." ++ ext)%string.
    split; [reflexivity|]. split; [now apply RegexFacts.lang_Plus_Class|].
    apply RegexFacts.lang_Cat. exists ".", ext.
    split; [reflexivity|]. split; [now apply RegexFacts.lang_Chr|].
    apply RegexFacts.lang_Alt. rewrite !RegexFacts.lang_Lit. exact Hext.
Qed.

Lemma route_ImmutableAsset (request : Request) :
  route cfg request = Some ImmutableAsset ->
  url_origin request = location_origin cfg /\
  method request = "GET" /\
  mode request <> "navigate" /\
  isHashedAsset (url request) = true.
Proof.
  unfold route.
  destruct (String.eqb (url_origin request) (location_origin cfg)) eqn:Eo;
    [|discriminate].
  destruct (String.eqb (method request) "GET") eqn:Em; [|discriminate].
  destruct (String.eqb (mode request) "navigate") eqn:En; [discriminate|].
  cbn [negb orb].
  destruct (Str.includes _ _); [discriminate|].
  destruct (isHashedAsset (url request)); [|discriminate].
  intros _. apply String.eqb_eq in Eo, Em. apply String.eqb_neq in En.
  auto.
Qed.

Lemma onfetch_ImmutableAsset (event : FetchEvent) :
  route cfg (request event) = Some ImmutableAsset ->
  onfetch cfg env event = Some (hashedAssetStrategy cfg env event).
Proof. unfold onfetch. now intros ->. Qed.

Lemma hashedAsset_hit (event : FetchEvent) (w : World) (c : Response) :
  match_any (caches w) (url (request event)) = Some c ->
  hashedAssetStrategy cfg env event w = (w, Val c).
Proof.
  intros H. unfold hashedAssetStrategy.
  erewrite bind_val by reflexivity. cbn [caches]. now rewrite H.
Qed.

Lemma hashedAsset_miss_stored (event : FetchEvent) s n t d r :
  let u := url (request event) in
  match_any s u = None ->
  net env u = Fulfils d r ->
  open_fails env (assetCacheName cfg) = false ->
  put_fails env (assetCacheName cfg) u = false ->
  hashedAssetStrategy cfg env event (mkWorld s n t) =
  (mkWorld (update (ensure s (assetCacheName cfg)) (assetCacheName cfg)
              (fun c => entry_put c u r))
           (n + d) (t ++ [EvFetch u]),
   Val r).
Proof.
  intros u Hmiss Hnet Hopen Hput. unfold hashedAssetStrategy.
  erewrite bind_val by reflexivity. cbn [caches]. fold u. rewrite Hmiss.
  run_async. rewrite Hnet, Hopen. run_async. now rewrite Hput.
Qed.

(** A fetched response is lost when the write into [assets] fails. *)
Lemma hashedAsset_write_failure (event : FetchEvent) (w : World) d r :
  let u := url (request event) in
  match_any (caches w) u = None ->
  net env u = Fulfils d r ->
  open_fails env (assetCacheName cfg) = true \/
  put_fails env (assetCacheName cfg) u = true ->
  snd (hashedAssetStrategy cfg env event w) = Val networkErrorResponse.
Proof.
  intros u Hmiss Hnet Hfail. destruct w as [s n t].
  unfold hashedAssetStrategy.
  erewrite bind_val by reflexivity. cbn [caches] in *. fold u.
  rewrite Hmiss. run_async. rewrite Hnet.
  destruct (open_fails env (assetCacheName cfg)) eqn:Eo; run_async;
    [reflexivity|].
  destruct Hfail as [H|H]; [discriminate|]. now rewrite H.
Qed.

(** C6. A request the router sends to the hashed-asset strategy has a URL
    that matches the pattern; when some cache holds an entry for it, the
    strategy returns that entry and leaves the world as it was, so it
    fetches nothing.  In particular, after a first request that missed,
    fetched and stored, the same request is answered from the cache: the
    only fetch in the trace is that of the first request. *)
Theorem hashedAsset_cache_first (event : FetchEvent) (w : World) :
  let u := url (request event) in
  route cfg (request event) = Some ImmutableAsset ->
  isHashedAsset u = true /\
  exists h,
    onfetch cfg env event = Some h /\
    (forall c, match_any (caches w) u = Some c -> h w = (w, Val c)) /\
    (forall d r,
       match_any (caches w) u = None ->
       net env u = Fulfils d r ->
       open_fails env (assetCacheName cfg) = false ->
       put_fails env (assetCacheName cfg) u = false ->
       exists w1,
         h w = (w1, Val r) /\
         trace w1 = trace w ++ [EvFetch u] /\
         h w1 = (w1, Val r)).
Proof.
  intros u Hroute. split; [now apply route_ImmutableAsset|].
  exists (hashedAssetStrategy cfg env event).
  split; [now apply onfetch_ImmutableAsset|]. split.
  - intros c. apply hashedAsset_hit.
  - intros d r Hmiss Hnet Hopen Hput. destruct w as [s n t].
    cbn [caches] in Hmiss. eexists. split; [|split].
    + apply hashedAsset_miss_stored; eassumption.
    + reflexivity.
    + apply hashedAsset_hit. cbn [caches]. now apply match_any_after_put.
Qed.

End AssetFacts.

(* ================================================================== *)
(** * Install and activate *)
(* ================================================================== *)

Section LifecycleFacts.
Import Store.
Variable cfg : Config.
Variable env : Env.

Lemma substring_all (s : string) : String.substring 0 (String.length s) s = s.
Proof. induction s; simpl; congruence. Qed.

Lemma prefix_nil (s : string) : String.prefix "" s = true.
Proof. now destruct s. Qed.

(** The version sent to the clients is the build's version token. *)
Lemma version_token :
  Str.replace "assets-" "" (assetCacheName cfg) = APP_VERSION cfg.
Proof.
  unfold assetCacheName. cbn. rewrite prefix_nil, Nat.sub_0_r.
  apply substring_all.
Qed.

Lemma filter_twice {A} (f g : A -> bool) (l : list A) :
  filter f (filter g l) = filter (fun x => g x && f x) l.
Proof.
  induction l as [|a l IH]; simpl; auto.
  destruct (g a); simpl; [destruct (f a)|]; now rewrite IH.
Qed.

Lemma remove_all_filter (ks : list string) : forall s : CacheStorage,
  fold_left remove ks s =
  filter (fun p => negb (existsb (String.eqb (fst p)) ks)) s.
Proof.
  induction ks as [|k ks IH]; intros s; simpl.
  - induction s as [|p s IHs]; simpl; congruence.
  - rewrite IH. unfold remove. rewrite filter_twice.
    apply filter_ext. intros p. now rewrite negb_orb.
Qed.

(** Deleting the caches that are not in [cacheList] keeps exactly those
    that are. *)
Lemma remove_stale_filter (s : CacheStorage) :
  fold_left remove
    (filter (fun key => negb (cacheList_has cfg key)) (names s)) s =
  filter (fun p => cacheList_has cfg (fst p)) s.
Proof.
  rewrite remove_all_filter. apply filter_ext_in. intros p Hp.
  destruct (cacheList_has cfg (fst p)) eqn:E.
  - apply negb_true_iff. apply not_true_iff_false. intros H.
    apply existsb_exists in H as (k & Hk & Hkp).
    apply String.eqb_eq in Hkp. subst k.
    apply filter_In in Hk as [_ Hk]. rewrite E in Hk. discriminate.
  - apply negb_false_iff. apply existsb_exists. exists (fst p). split.
    + apply filter_In. split; [now apply in_map|]. now rewrite E.
    + apply String.eqb_refl.
Qed.

Lemma mapM_delete (ks : list string) : forall s n t,
  exists ps bs,
    mapM (fun key => async (caches_delete key)) ks (mkWorld s n t) =
      (mkWorld (fold_left remove ks s) n (t ++ map EvCachesDelete ks),
       Val ps) /\
    promise_all ps = Fulfils 0 bs.
Proof.
  induction ks as [|k ks IH]; intros s n t.
  - exists [], []. simpl. rewrite app_nil_r. auto.
  - destruct (IH (remove s k) n (t ++ [EvCachesDelete k]))
      as (ps & bs & Hrun & Hall).
    exists (Fulfils 0 (has_cache s k) :: ps), (has_cache s k :: bs).
    split.
    + cbn [mapM]. unfold caches_delete. run_async.
      rewrite Nat.sub_diag.
      change (mapM _ ks ?w) with
        (mapM (fun key => async (caches_delete key)) ks w).
      rewrite Hrun. cbn [fold_left map]. rewrite <- app_assoc. reflexivity.
    + cbn [promise_all]. rewrite Hall. reflexivity.
Qed.

Lemma clearOldCaches_spec s n t :
  clearOldCaches cfg (mkWorld s n t) =
  (mkWorld (filter (fun p => cacheList_has cfg (fst p)) s) n
     (t ++ map EvCachesDelete
             (filter (fun key => negb (cacheList_has cfg key)) (names s))),
   Val tt).
Proof.
  unfold clearOldCaches.
  destruct (mapM_delete
              (filter (fun key => negb (cacheList_has cfg key)) (names s))
              s n t) as (ps & bs & Hrun & Hall).
  apply try_catch_val.
  erewrite bind_val by reflexivity. cbn [caches].
  erewrite bind_val by exact Hrun.
  rewrite Hall. run_async. rewrite Nat.add_0_r, remove_stale_filter.
  reflexivity.
Qed.

Lemma notifyClients_spec s n t :
  notifyClients cfg env (mkWorld s n t) =
  (mkWorld s n
     (t ++ map (fun c => EvPostMessage (client_id c) "SW_UPDATED"
                           (APP_VERSION cfg))
             (allClients env)),
   Val tt).
Proof.
  unfold notifyClients. rewrite version_token.
  erewrite bind_val by reflexivity.
  generalize (allClients env) as cs. intros cs. revert t.
  induction cs as [|c cs IH]; intros t; cbn [forM_ map].
  - now rewrite app_nil_r.
  - erewrite bind_val by reflexivity. rewrite IH.
    now rewrite <- app_assoc.
Qed.

Lemma activate_spec s n t :
  activate cfg env (mkWorld s n t) =
  (mkWorld (filter (fun p => cacheList_has cfg (fst p)) s) n
     (t ++ map EvCachesDelete
             (filter (fun key => negb (cacheList_has cfg key)) (names s))
        ++ [EvClaim]
        ++ map (fun c => EvPostMessage (client_id c) "SW_UPDATED"
                           (APP_VERSION cfg))
             (allClients env)),
   Val tt).
Proof.
  unfold activate.
  erewrite bind_val by apply clearOldCaches_spec.
  erewrite bind_val by reflexivity. cbn [caches now trace].
  rewrite notifyClients_spec. now rewrite <- !app_assoc.
Qed.

Lemma cacheList_has_iff (name : string) :
  cacheList_has cfg name = true <-> In name (cacheList cfg).
Proof.
  unfold cacheList_has. rewrite existsb_exists. split.
  - intros (k & Hk & E). apply String.eqb_eq in E. now subst.
  - intros H. exists name. split; auto. apply String.eqb_refl.
Qed.

Lemma names_filter (f : string -> bool) (s : CacheStorage) :
  names (filter (fun p => f (fst p)) s) = filter f (names s).
Proof.
  unfold names. induction s as [|[k c] s IH]; simpl; auto.
  destruct (f k); simpl; now rewrite IH.
Qed.

Lemma lookup_filter (f : string -> bool) (s : CacheStorage) (name : string) :
  f name = true ->
  lookup (filter (fun p => f (fst p)) s) name = lookup s name.
Proof.
  unfold lookup. intros Hf. induction s as [|[k c] s IH]; simpl; auto.
  destruct (String.eqb k name) eqn:E.
  - apply String.eqb_eq in E. subst k. rewrite Hf. simpl.
    now rewrite String.eqb_refl.
  - destruct (f k); simpl; [rewrite E|]; auto.
Qed.

(** C5, as the code has it.  After activation the caches are those that
    existed before and are named in [cacheList]: every other cache is
    deleted, no cache named in [cacheList] is deleted or changed, and none
    is created. *)
Theorem activate_keeps_valid_caches (w : World) :
  let w' := fst (activate cfg env w) in
  caches w' = filter (fun p => cacheList_has cfg (fst p)) (caches w) /\
  (forall name,
     In name (names (caches w')) <->
     In name (names (caches w)) /\ In name (cacheList cfg)) /\
  (forall name,
     In name (cacheList cfg) ->
     lookup (caches w') name = lookup (caches w) name).
Proof.
  destruct w as [s n t]. rewrite activate_spec. cbn [fst caches].
  split; [reflexivity|]. split.
  - intros name. rewrite names_filter, filter_In, cacheList_has_iff.
    tauto.
  - intros name H. apply lookup_filter. now apply cacheList_has_iff.
Qed.

(** C8, as the code has it.  Activation returns, and what it does is, in
    this order: the deletion of every cache not named in [cacheList], then
    [clients.claim()], then one [SW_UPDATED] message with the version
    token to each client. *)
Theorem activate_order (w : World) :
  snd (activate cfg env w) = Val tt /\
  trace (fst (activate cfg env w)) =
    trace w
    ++ map EvCachesDelete
         (filter (fun key => negb (cacheList_has cfg key))
                 (names (caches w)))
    ++ [EvClaim]
    ++ map (fun c => EvPostMessage (client_id c) "SW_UPDATED"
                       (APP_VERSION cfg))
         (allClients env).
Proof. destruct w as [s n t]. rewrite activate_spec. auto. Qed.

(** ** Install never rejects *)

Lemma try_catch_never_throws {A} (m : M A) (h : error -> M A) :
  (forall e w, exists w' a, h e w = (w', Val a)) ->
  forall w e, snd (try_catch m h w) <> Exc e.
Proof.
  intros Hh w e. unfold try_catch.
  destruct (m w) as [w' [a|e'|]]; cbn; try discriminate.
  destruct (Hh e' w') as (w'' & a & ->). discriminate.
Qed.

Lemma updateAssetCache_never_throws (w : World) (e : error) :
  snd (updateAssetCache cfg env w) <> Exc e.
Proof.
  apply try_catch_never_throws. intros e' w'. eexists _, _. reflexivity.
Qed.

Lemma cacheClients_never_throws (w : World) (e : error) :
  snd (cacheClients env w) <> Exc e.
Proof.
  apply try_catch_never_throws. intros e' w'. eexists _, _. reflexivity.
Qed.

(** Whatever the network and the storage do, the promise the install
    listener hands to [waitUntil] does not reject. *)
Lemma install_never_rejects (w : World) (e : error) :
  snd (install cfg env w) <> Exc e.
Proof.
  unfold install, bind.
  pose proof (updateAssetCache_never_throws w) as H1.
  destruct (updateAssetCache cfg env w) as [w1 [a1|e1|]]; cbn in *;
    try discriminate; [|now elim (H1 e1)].
  pose proof (cacheClients_never_throws w1) as H2.
  destruct (cacheClients env w1) as [w2 [a2|e2|]]; cbn in *;
    try discriminate; now elim (H2 e2).
Qed.

End LifecycleFacts.

(* ================================================================== *)
(** * The claims on sample runs *)
(* ================================================================== *)

Module Runs.
Import Sample.

(** C1 at a failing input.  The fetch of the required [/offline] page
    fails during installation; [updateAssetCache] logs the error and
    returns, so the install promise resolves, [skipWaiting] is called, the
    offline page is in no cache, and activation follows. *)
Theorem install_resolves_when_required_fetch_fails :
  net envOfflineDown (resolve cfg "/offline") = Rejects 30 NetworkError /\
  install cfg envOfflineDown fresh =
    (mkWorld
       [("assets-v2", [(resolve cfg "/app.webmanifest",
                        ok (resolve cfg "/app.webmanifest"))]);
        ("pages", [(home, ok home)])]
       40
       [EvFetch (resolve cfg "/app.webmanifest");
        EvFetch (resolve cfg "/assets/app-0a1b2c.css");
        EvFetch (resolve cfg "/assets/app-0a1b2c.js");
        EvFetch (resolve cfg "/offline");
        EvLog "Error updating asset cache";
        EvFetch home;
        EvSkipWaiting],
     Val tt) /\
  snd (installThenActivate cfg envOfflineDown fresh) = Val tt /\
  In EvClaim (trace (fst (installThenActivate cfg envOfflineDown fresh))).
Proof.
  split; [reflexivity|]. split; [vm_compute; reflexivity|].
  split; [vm_compute; reflexivity|]. vm_compute. tauto.
Qed.

(** C2 at a failing input.  The network answers and every cache write is
    refused: the navigation and the generic strategy return the fetched
    response, the hashed-asset strategy returns its 503 response. *)
Theorem hashedAsset_write_failure_loses_response :
  route cfg (request getScript) = Some ImmutableAsset /\
  net envQuota script = Fulfils 10 (ok script) /\
  put_fails envQuota (assetCacheName cfg) script = true /\
  snd (hashedAssetStrategy cfg envQuota getScript fresh)
    = Val networkErrorResponse /\
  snd (navigationStrategy cfg envQuota navigateHome fresh)
    = Val (ok home) /\
  snd (genericStrategy cfg envQuota getPhoto fresh) = Val (ok photo).
Proof. repeat split; vm_compute; reflexivity. Qed.

(** Four pages trimmed to two: the two oldest go, oldest first. *)
Lemma trimCache_keeps_newest_witness :
  exists w',
    trimCache envUp "pages" 2 fourPages = (w', Val tt) /\
    Store.keys (Store.lookup (caches w') "pages") = ["c"; "d"] /\
    trace w' = [EvEntryDelete "pages" "a"; EvEntryDelete "pages" "b"].
Proof.
  destruct (@trimCache_keeps_newest envUp "pages" 2 fourPages)
    as (w' & Hrun & Hkept & _ & Htrace & _).
  - reflexivity.
  - repeat constructor; simpl; intuition discriminate.
  - simpl. lia.
  - exists w'. split; [exact Hrun|]. split.
    + rewrite Hkept. reflexivity.
    + rewrite Htrace. reflexivity.
Defined.

(** Four pages under a bound of fifty: nothing changes. *)
Lemma trimCache_within_bound_unchanged_witness :
  exists w',
    trimCache envUp "pages" 50 fourPages = (w', Val tt) /\
    caches w' = caches fourPages.
Proof.
  destruct (@trimCache_within_bound_unchanged envUp "pages" 50 fourPages)
    as (w' & Hrun & _ & _ & Hsame).
  - simpl. lia.
  - exists w'. split; [exact Hrun|]. apply Hsame. reflexivity.
Defined.

(** A slow network, with and without a cached page. *)
Lemma navigation_timer_only_with_cached_entry_witness :
  (* a cached page and a slow network: the cached page, at 5000 ms *)
  (snd (navigationStrategy cfg envSlow navigateHome cachedHome)
     = Val (ok "stale") /\
   now (fst (navigationStrategy cfg envSlow navigateHome cachedHome))
     = 5000) /\
  (* no cached page and a slow network: the fetched page, when it comes *)
  (snd (navigationStrategy cfg envSlow navigateHome fresh)
     = Val (ok home) /\
   now (fst (navigationStrategy cfg envSlow navigateHome fresh))
     = timeout + 3000).
Proof.
  split.
  - destruct (navigation_timer_only_with_cached_entry
                cfg envSlow navigateHome cachedHome) as [Hcached _].
    destruct (Hcached (ok "stale") eq_refl) as (_ & _ & Hslow & _).
    destruct (Hslow (timeout + 3000) eq_refl) as [Hnow Hres].
    + apply Nat.ltb_lt. vm_compute. reflexivity.
    + split; [exact Hres|exact Hnow].
  - destruct (navigation_timer_only_with_cached_entry
                cfg envSlow navigateHome fresh) as [_ Hmiss].
    destruct (Hmiss eq_refl) as (_ & _ & Hok & _).
    destruct (Hok (timeout + 3000) (ok home) eq_refl) as [Hnow Hres].
    split; [exact Hres|exact Hnow].
Defined.

(** The network down, with and without a cached page. *)
Lemma navigation_fallback_chain_witness :
  snd (navigationStrategy cfg envDown navigateHome cachedHome)
    = Val (ok "stale") /\
  snd (navigationStrategy cfg envDown navigateHome fresh)
    = Val offlineResponse.
Proof.
  split.
  - destruct (navigation_fallback_chain cfg envDown navigateHome cachedHome)
      as (Hcached & _).
    + left. exists 15, NetworkError. reflexivity.
    + apply Hcached. reflexivity.
  - destruct (navigation_fallback_chain cfg envDown navigateHome fresh)
      as (_ & _ & Hnone & _).
    + left. exists 15, NetworkError. reflexivity.
    + apply Hnone; reflexivity.
Defined.

(** A cached script is served without a fetch. *)
Lemma hashedAsset_cache_first_witness :
  isHashedAsset script = true /\
  hashedAssetStrategy cfg envUp getScript cachedScript
    = (cachedScript, Val (ok "js")).
Proof.
  destruct (hashedAsset_cache_first cfg envUp getScript cachedScript)
    as (Hpat & h & Hh & Hhit & _).
  - vm_compute. reflexivity.
  - split; [exact Hpat|].
    rewrite (onfetch_ImmutableAsset cfg envUp getScript) in Hh
      by (vm_compute; reflexivity).
    injection Hh as <-. apply Hhit. reflexivity.
Defined.

(** A photo URL with a query string is an image: it is stored when
    fetched and, offline with nothing cached, answered by the
    placeholder, a 200 response carrying the SVG; a JSON feed gets the
    503 response. *)
Lemma generic_image_test_witness :
  isImageUrl photo = true /\
  Store.lookup (caches (fst (genericStrategy cfg envUp getPhoto fresh)))
               "images" = [(photo, ok photo)] /\
  snd (genericStrategy cfg envDown getPhoto fresh)
    = Val (mkResponse 200 ""
             [("Content-Type", "image/svg+xml"); ("Cache-Control", "no-store")]
             (placeholderImage cfg)) /\
  snd (genericStrategy cfg envDown getFeed fresh)
    = Val (mkResponse 503 "Service Unavailable"
             [("Content-Type", "text/plain")] "Network error") /\
  snd (genericStrategy cfg envDown getPhoto fresh)
    <> snd (genericStrategy cfg envDown getFeed fresh).
Proof.
  destruct (generic_image_test cfg envUp getPhoto fresh)
    as (Htest & Hstore & _).
  destruct (generic_image_test cfg envDown getPhoto fresh)
    as (_ & _ & Hphoto & Hdiffer & _).
  destruct (generic_image_test cfg envDown getFeed fresh)
    as (_ & _ & Hfeed & _).
  assert (Himage : isImageUrl photo = true).
  { apply Htest. exists ".png". split; [simpl; tauto|].
    exists "https://example.org/media/photo", "?w=200". reflexivity. }
  assert (Hother : isImageUrl feed = false) by (vm_compute; reflexivity).
  specialize (Hphoto 15 NetworkError eq_refl eq_refl).
  specialize (Hfeed 15 NetworkError eq_refl eq_refl).
  change (url (request getPhoto)) with photo in Hphoto.
  change (url (request getFeed)) with feed in Hfeed.
  rewrite Himage in Hphoto. rewrite Hother in Hfeed.
  split; [exact Himage|]. split; [|split; [exact Hphoto|split; [exact Hfeed|]]].
  - rewrite (Hstore 10 (ok photo)) by reflexivity. reflexivity.
  - rewrite Hphoto, Hfeed. intros Heq. apply Hdiffer.
    injection Heq as Hs Hh Hb. congruence.
Defined.

(** An old assets cache is deleted, the others stay. *)
Lemma activate_keeps_valid_caches_witness :
  Store.names (caches (fst (activate cfg envUp withOldAssets)))
    = ["assets-v2"; "pages"] /\
  Store.lookup (caches (fst (activate cfg envUp withOldAssets))) "pages"
    = Store.lookup (caches withOldAssets) "pages".
Proof.
  destruct (activate_keeps_valid_caches cfg envUp withOldAssets)
    as (Hcaches & _ & Hkept).
  split.
  - rewrite Hcaches. reflexivity.
  - apply Hkept. simpl. tauto.
Defined.

(** C5 as stated fails on a first visit: after installation and
    activation with the network up there is no [images] cache, which is
    only created when an image is first stored. *)
Lemma activate_names_not_exactly_valid :
  ~ cacheNamesExactlyValid cfg
      (fst (activate cfg envUp (fst (install cfg envUp fresh)))).
Proof.
  assert (Hnames :
    Store.names
      (caches (fst (activate cfg envUp (fst (install cfg envUp fresh)))))
    = ["assets-v2"; "pages"]) by (vm_compute; reflexivity).
  intros H. specialize (H "images"). destruct H as [_ H].
  rewrite Hnames in H.
  destruct H as [H|[H|[]]]; [simpl; tauto|discriminate|discriminate].
Qed.

(** C8 as stated fails whenever there is a client: the message is posted
    after [clients.claim()], not before. *)
Lemma activate_claims_before_broadcast :
  ~ broadcastBeforeClaim (trace (fst (activate cfg envUp withOldAssets))).
Proof.
  intros H.
  assert (Htr : trace (fst (activate cfg envUp withOldAssets)) =
                [EvCachesDelete "assets-v1"; EvClaim;
                 EvPostMessage 1 "SW_UPDATED" "v2"])
    by (vm_compute; reflexivity).
  rewrite Htr in H.
  specialize (H 2 1 1 "SW_UPDATED" "v2" eq_refl eq_refl). lia.
Qed.

End Runs.

(* ================================================================== *)
(** * More on trimming: repeated trims and the message listener *)
(* ================================================================== *)

(** ** Message values *)

Module JsFacts.
Import Js.










End JsFacts.


Section TrimMore.
Import Store StoreFacts.
Variable env : Env.

Lemma NoDup_skipn {A} (k : nat) (l : list A) : NoDup l -> NoDup (skipn k l).
Proof.
  intros H. rewrite <- (firstn_skipn k l) in H.
  now apply NoDup_app_remove_l in H.
Qed.

Lemma keys_skipn (k : nat) (c : Cache) : keys (skipn k c) = skipn k (keys c).
Proof. unfold keys. now rewrite skipn_map. Qed.

(** The world [trimCache] returns when the cache opens. *)
Lemma trimCache_result (cacheName : string) (maxItems : nat) (w : World) :
  let c := lookup (caches w) cacheName in
  open_fails env cacheName = false ->
  NoDup (keys c) ->
  trimCache env cacheName maxItems w =
  (mkWorld (update (ensure (caches w) cacheName) cacheName
              (skipn (List.length c - maxItems)))
           (now w)
           (trace w ++ map (EvEntryDelete cacheName)
                         (firstn (List.length c - maxItems) (keys c))),
   Val tt).
Proof.
  intros c Hopen Hnd. subst c.
  destruct (Nat.le_gt_cases
              (List.length (lookup (caches w) cacheName)) maxItems)
    as [Hle|Hgt].
  - unfold trimCache. rewrite trimCache_rec_unfold, Hopen. cbv zeta.
    rewrite lookup_ensure.
    replace (maxItems <? _) with false
      by (symmetry; apply Nat.ltb_ge; unfold keys; rewrite length_map; lia).
    replace (_ - maxItems) with 0 by lia.
    cbn [firstn map]. rewrite app_nil_r.
    now rewrite update_id by reflexivity.
  - unfold trimCache. apply trimCache_rec_spec; auto; lia.
Qed.


(** X1. Trimming is idempotent: after one [trimCache] of a cache with
    distinct keys, a second one returns the world it is given, deleting
    nothing, and the cache holds the smaller of its old size and the
    bound. *)
Theorem trimCache_idempotent (cacheName : string) (maxItems : nat)
    (w : World) :
  open_fails env cacheName = false ->
  NoDup (keys (lookup (caches w) cacheName)) ->
  exists w1,
    trimCache env cacheName maxItems w = (w1, Val tt) /\
    trimCache env cacheName maxItems w1 = (w1, Val tt) /\
    List.length (lookup (caches w1) cacheName) =
      Nat.min (List.length (lookup (caches w) cacheName)) maxItems.
Proof.
  intros Hopen Hnd.
  set (c := lookup (caches w) cacheName) in *.
  set (k := List.length c - maxItems).
  eexists. split; [apply trimCache_result; auto|]. fold c k.
  set (s1 := update (ensure (caches w) cacheName) cacheName (skipn k)).
  assert (Hhas : has_cache s1 cacheName = true)
    by (unfold s1; rewrite has_cache_update; apply has_cache_ensure).
  assert (Hc1 : lookup s1 cacheName = skipn k c).
  { unfold s1. rewrite lookup_update_same by apply has_cache_ensure.
    now rewrite lookup_ensure. }
  split.
  - rewrite trimCache_result; cbn [caches now trace]; auto.
    + rewrite Hc1, length_skipn.
      replace (List.length c - k - maxItems) with 0 by (unfold k; lia).
      cbn [firstn map]. rewrite app_nil_r, ensure_has by auto.
      now rewrite update_id by reflexivity.
    + rewrite Hc1, keys_skipn. now apply NoDup_skipn.
  - cbn [caches]. rewrite Hc1, length_skipn. unfold k. lia.
Qed.


End TrimMore.

(* ================================================================== *)
(** * More on the fetch strategies *)
(* ================================================================== *)

Section StrategiesMore.
Import Store StoreFacts.
Variable cfg : Config.

Lemma entry_match_remove (c : Cache) (u : string) :
  entry_match (entry_remove c u) u = None.
Proof.
  unfold entry_match, entry_remove.
  induction c as [|[k v] c IH]; simpl; auto.
  destruct (String.eqb k u) eqn:E; simpl; auto. now rewrite E.
Qed.

Lemma entry_match_put_same (c : Cache) (u : string) (r : Response) :
  entry_match (entry_put c u r) u = Some r.
Proof.
  unfold entry_put.
  assert (H : forall c', entry_match c' u = None ->
                         entry_match (c' ++ [(u, r)]) u = Some r).
  { unfold entry_match. induction c' as [|[k v] c' IH]; simpl.
    - now rewrite String.eqb_refl.
    - destruct (String.eqb k u); [discriminate|auto]. }
  apply H, entry_match_remove.
Qed.


Lemma race_settled {A} (tie : bool) (p q : promise A) :
  settles_at p <> None -> settles_at q <> None ->
  race tie p q = p \/ race tie p q = q.
Proof.
  unfold race. intros Hp Hq.
  destruct (settles_at p) as [dp|]; [|congruence].
  destruct (settles_at q) as [dq|]; [|congruence].
  destruct (dp <? dq), (dq <? dp), tie; auto.
Qed.

(** X3. A navigation whose fetch fails, or loses the race against the
    timer, writes nothing: the caches are as they were, also when the
    response arrives after the timer has fired. *)
Theorem navigation_failure_leaves_caches (env : Env) (event : FetchEvent)
    (w : World) :
  let cached := match_any (caches w) (url (request event)) in
  let p := networkOutcome env event in
  (exists d e, p = Rejects d e) \/
  (cached <> None /\
   race (timer_wins_tie env) p timeoutPromise = timeoutPromise) ->
  caches (fst (navigationStrategy cfg env event w)) = caches w.
Proof.
  intros cached p H. apply awaited_rejects in H as (d & e & H).
  destruct w as [s n t]. rewrite navigationStrategy_spec. cbv zeta.
  cbn [caches] in *. fold cached p. now rewrite H.
Qed.


(** X5. When the browser supplies a preload response, the navigation
    issues no fetch of its own, and with nothing cached that response is
    the one returned, at the moment the preload settles. *)
Theorem navigation_uses_preload (env : Env) (event : FetchEvent)
    (w : World) d r :
  let out := navigationStrategy cfg env event w in
  preloadResponse event = Fulfils d (Some r) ->
  (forall x, In (EvFetch x) (trace (fst out)) -> In (EvFetch x) (trace w)) /\
  (match_any (caches w) (url (request event)) = None ->
   snd out = Val r /\ now (fst out) = now w + d).
Proof.
  intros out Hpre. subst out. destruct w as [s n t].
  rewrite navigationStrategy_spec. cbv zeta. cbn [caches trace now].
  assert (Hp : networkOutcome env event = Fulfils d r)
    by (unfold networkOutcome; now rewrite Hpre).
  assert (Hf : navigationFetches event = [])
    by (unfold navigationFetches; now rewrite Hpre).
  rewrite Hp, Hf. cbn [app]. split.
  - intros x.
    destruct (awaitedByNavigation env _ (Fulfils d r)) as [|d' r'|d' e'];
      cbn [fst trace].
    + rewrite in_app_iff. intros [H|H]; auto.
      destruct (match_any s (url (request event))); simpl in H;
        intuition discriminate.
    + destruct (pageWrite_trace env s (n + d')
                  (t ++ match match_any s (url (request event)) with
                        | Some _ => [EvTimerStart timeout]
                        | None => []
                        end) (url (request event)) r')
        as (l & Hl & _).
      unfold pageWrite in *.
      destruct (open_fails env pagesCacheName);
        [|destruct (put_fails env pagesCacheName (url (request event)))];
        cbn [trace]; rewrite ?in_app_iff;
        destruct (match_any s (url (request event))); simpl;
        intuition discriminate.
    + rewrite in_app_iff. intros [H|H]; auto.
      destruct (match_any s (url (request event))); simpl in H;
        intuition discriminate.
  - intros ->. cbn [awaitedByNavigation fst snd].
    now rewrite pageWrite_now.
Qed.

(** X6. On a cache hit the generic strategy answers at once with the
    cached entry: it does not wait for the network, which may fail or
    never answer, and it has still issued the fetch that revalidates. *)
Theorem generic_hit_answers_at_once (env : Env) (event : FetchEvent)
    (w : World) (c : Response) :
  let u := url (request event) in
  let out := genericStrategy cfg env event w in
  match_any (caches w) u = Some c ->
  snd out = Val c /\
  now (fst out) = now w /\
  In (EvFetch u) (trace (fst out)).
Proof.
  intros u out Hhit. subst u out. destruct w as [s n t].
  cbn [caches] in Hhit.
  unfold genericStrategy. run_async. rewrite Hhit.
  destruct (net env (url (request event))) as [|d r|d e];
    destruct (isImageUrl (url (request event)));
    try (destruct (open_fails env imageCacheName); run_async);
    try (destruct (put_fails env imageCacheName (url (request event))));
    cbn; repeat split; rewrite ?in_app_iff; simpl; auto.
Qed.

(** X7. The generic strategy writes nothing for a URL that fails the
    image test: scripts, styles, fonts and data it fetches are never
    stored, whatever the network answers. *)
Theorem generic_stores_only_images (env : Env) (event : FetchEvent)
    (w : World) :
  isImageUrl (url (request event)) = false ->
  caches (fst (genericStrategy cfg env event w)) = caches w.
Proof.
  intros Himg. destruct w as [s n t].
  unfold genericStrategy. run_async. rewrite Himg.
  destruct (net env (url (request event))) as [|d r|d e];
    destruct (match_any s (url (request event))); reflexivity.
Qed.

Lemma hashedAsset_fetch_failure (env : Env) (event : FetchEvent)
    (w : World) d e :
  let u := url (request event) in
  match_any (caches w) u = None ->
  net env u = Rejects d e ->
  hashedAssetStrategy cfg env event w =
  (mkWorld (caches w) (now w + d)
     (trace w ++ [EvFetch u; EvLog "Fetch failed for hashed asset:"]),
   Val networkErrorResponse).
Proof.
  intros u Hmiss Hnet. subst u. destruct w as [s n t].
  cbn [caches now trace] in *. unfold hashedAssetStrategy.
  erewrite bind_val by reflexivity. cbn [caches]. rewrite Hmiss.
  run_async. rewrite Hnet. now rewrite <- app_assoc.
Qed.

(** X8. A hashed asset that is not cached and cannot be fetched gets the
    503 response, and that response is not stored: the next request for
    the asset goes to the network again and, the network being back,
    returns what it fetches. *)
Theorem hashedAsset_failure_not_cached (env1 env2 : Env)
    (event : FetchEvent) (w : World) d1 e1 d2 r :
  let u := url (request event) in
  let out1 := hashedAssetStrategy cfg env1 event w in
  let out2 := hashedAssetStrategy cfg env2 event (fst out1) in
  match_any (caches w) u = None ->
  net env1 u = Rejects d1 e1 ->
  net env2 u = Fulfils d2 r ->
  open_fails env2 (assetCacheName cfg) = false ->
  put_fails env2 (assetCacheName cfg) u = false ->
  snd out1 = Val networkErrorResponse /\
  caches (fst out1) = caches w /\
  snd out2 = Val r /\
  trace (fst out2) = trace (fst out1) ++ [EvFetch u].
Proof.
  intros u out1 out2 Hmiss Hdown Hup Hopen Hput. subst out1 out2.
  rewrite (hashedAsset_fetch_failure env1 event w Hmiss Hdown).
  cbn [fst snd caches]. split; [reflexivity|]. split; [reflexivity|].
  erewrite hashedAsset_miss_stored; eauto. cbn [fst snd trace]. auto.
Qed.

(** X9. No strategy lets a failure through: whatever the network and the
    storage do, the promise given to [respondWith] does not reject; and
    it resolves with a response whenever the preload and the fetch
    settle. *)
Theorem onfetch_never_rejects (env : Env) (event : FetchEvent)
    (h : M Response) (w : World) :
  onfetch cfg env event = Some h ->
  (forall e, snd (h w) <> Exc e) /\
  (preloadResponse event <> Never ->
   net env (url (request event)) <> Never ->
   exists r, snd (h w) = Val r).
Proof.
  unfold onfetch. destruct (route cfg (request event)) as [[| |]|];
    intros Hh; try discriminate; injection Hh as <-;
    destruct w as [s n t].
  - (* navigation *)
    rewrite navigationStrategy_spec. cbv zeta. split.
    + intros e. destruct (awaitedByNavigation _ _ _); discriminate.
    + intros Hpre Hnet.
      assert (Hp : settles_at (networkOutcome env event) <> None).
      { unfold networkOutcome.
        destruct (preloadResponse event) as [|d [r|]|d e];
          try discriminate; [congruence|].
        destruct (net env (url (request event))); try discriminate.
        congruence. }
      assert (Ha : awaitedByNavigation env
                     (match_any s (url (request event)))
                     (networkOutcome env event) <> Never).
      { unfold awaitedByNavigation.
        destruct (match_any s (url (request event)));
          [|intros H; now rewrite H in Hp].
        destruct (race_settled (timer_wins_tie env)
                    (networkOutcome env event) timeoutPromise Hp)
          as [-> | ->]; [discriminate| |discriminate].
        intros H. now rewrite H in Hp. }
      destruct (awaitedByNavigation _ _ _); [congruence| |]; cbn; eauto.
  - (* hashed asset *)
    unfold hashedAssetStrategy. run_async.
    destruct (match_any s (url (request event)));
      [split; [discriminate|eauto]|].
    destruct (net env (url (request event))) as [|d r|d e]; run_async.
    + split; [discriminate|congruence].
    + destruct (open_fails env (assetCacheName cfg)); run_async;
        [|destruct (put_fails env (assetCacheName cfg)
                      (url (request event)))];
        (split; [discriminate|eauto]).
    + split; [discriminate|eauto].
  - (* generic *)
    unfold genericStrategy. run_async.
    destruct (net env (url (request event))) as [|d r|d e];
      destruct (isImageUrl (url (request event)));
      try (destruct (open_fails env imageCacheName); run_async);
      try (destruct (put_fails env imageCacheName (url (request event))));
      destruct (match_any s (url (request event)));
      (split; [discriminate|try congruence; eauto]).
Qed.

End StrategiesMore.

(* ================================================================== *)
(** * More on install and activate *)
(* ================================================================== *)

Section LifecycleMore.
Import Store StoreFacts.
Variable cfg : Config.
Variable env : Env.

(** ** [addAll] *)

Lemma mapM_fetch_run (urls : list string) : forall s n t,
  mapM (fun u =>
          async (r <- fetch env u ;;
                 if response_ok r then ret (u, r) else throw BadStatus))
       urls (mkWorld s n t) =
  (mkWorld s n (t ++ map EvFetch urls),
   Val (map (fetchForAddAll env) urls)).
Proof.
  induction urls as [|u urls IH]; intros s n t.
  - cbn. now rewrite app_nil_r.
  - cbn [mapM map]. unfold bind at 1.
    assert (Hu : async (r <- fetch env u ;;
                        if response_ok r then ret (u, r)
                        else throw BadStatus) (mkWorld s n t) =
                 (mkWorld s n (t ++ [EvFetch u]),
                  Val (fetchForAddAll env u))).
    { unfold fetchForAddAll. run_async.
      destruct (net env u) as [|d r|d e]; run_async; try reflexivity.
      - destruct (response_ok r); run_async;
          replace (n + d - n) with d by lia; reflexivity.
      - replace (n + d - n) with d by lia. reflexivity. }
    rewrite Hu. unfold bind at 1. rewrite IH.
    cbn. now rewrite <- app_assoc.
Qed.

Lemma cache_addAll_spec (cache : string) (urls : list string) s n t :
  cache_addAll env cache urls (mkWorld s n t) =
  let t' := t ++ map EvFetch urls in
  match promise_all (map (fetchForAddAll env) urls) with
  | Never => (mkWorld s n t', Pending)
  | Rejects d e => (mkWorld s (n + d) t', Exc e)
  | Fulfils d entries =>
      if existsb (put_fails env cache) urls
      then (mkWorld s (n + d) t', Exc StorageError)
      else (mkWorld
              (update s cache (fun c =>
                 fold_left (fun c e => entry_put c (fst e) (snd e))
                           entries c))
              (n + d) t',
            Val tt)
  end.
Proof.
  unfold cache_addAll. erewrite bind_val by apply mapM_fetch_run.
  cbv zeta.
  destruct (promise_all (map (fetchForAddAll env) urls)) as [|d l|d e];
    run_async; try reflexivity.
  destruct (existsb (put_fails env cache) urls); reflexivity.
Qed.

(** When every URL answers with an ok response, [Promise.all] fulfils
    with one entry per URL, in order, each holding what was fetched. *)
Lemma promise_all_fetched (urls : list string) :
  Forall (fun u => exists d r, net env u = Fulfils d r /\
                               response_ok r = true) urls ->
  exists d entries,
    promise_all (map (fetchForAddAll env) urls) = Fulfils d entries /\
    map fst entries = urls /\
    Forall (fun e => exists d', net env (fst e) = Fulfils d' (snd e))
           entries.
Proof.
  induction 1 as [|u urls (d & r & Hnet & Hok) _ (D & es & Hall & Hfst & Hes)].
  - exists 0, []. cbn. auto.
  - exists (Nat.max d D), ((u, r) :: es). cbn [map promise_all].
    unfold fetchForAddAll at 1. rewrite Hnet, Hok, Hall.
    split; [reflexivity|]. split; [cbn; congruence|].
    constructor; eauto.
Qed.


Lemma entry_match_put_other (c : Cache) (k u : string) (r : Response) :
  u <> k -> entry_match (entry_put c k r) u = entry_match c u.
Proof.
  intros D. unfold entry_match, entry_put, entry_remove.
  induction c as [|[k' v] c IH]; simpl.
  - apply String.eqb_neq in D. rewrite String.eqb_sym in D.
    now rewrite D.
  - destruct (String.eqb k' k) eqn:E; simpl.
    + apply String.eqb_eq in E. subst k'.
      apply String.eqb_neq in D. rewrite String.eqb_sym in D.
      now rewrite D.
    + destruct (String.eqb k' u); auto.
Qed.

Lemma find_append {A} (f : A -> bool) (l l' : list A) :
  find f (l ++ l') =
  match find f l with Some x => Some x | None => find f l' end.
Proof.
  induction l as [|a l IH]; simpl; auto. destruct (f a); auto.
Qed.

(** After a run of writes the entry for [u] is the last one written for
    [u], or the old entry when none was. *)
Lemma entry_match_fold_put (es : list (string * Response)) (u : string) :
  forall c,
  entry_match (fold_left (fun c e => entry_put c (fst e) (snd e)) es c) u =
  match find (fun e => String.eqb (fst e) u) (rev es) with
  | Some e => Some (snd e)
  | None => entry_match c u
  end.
Proof.
  induction es as [|[k r] es IH]; intros c; cbn [fold_left rev].
  - reflexivity.
  - rewrite IH, find_append. cbn [fst snd].
    destruct (find _ (rev es)); [reflexivity|]. cbn [find fst snd].
    destruct (String.eqb k u) eqn:E.
    + apply String.eqb_eq in E. subst k. apply entry_match_put_same.
    + apply entry_match_put_other. apply String.eqb_neq in E. congruence.
Qed.

Lemma entry_found_match_any (s : CacheStorage) (name u : string) :
  entry_match (lookup s name) u <> None -> match_any s u <> None.
Proof.
  unfold lookup. induction s as [|[n c] s IH]; cbn; intros H.
  - now elim H.
  - destruct (entry_match c u) eqn:Ec; [discriminate|].
    destruct (String.eqb n name); cbn in H; [congruence|auto].
Qed.

(** Each URL that [addAll] wrote maps to the response fetched for it. *)
Lemma fold_put_fetched (entries : list (string * Response)) (c : Cache)
    (u : string) d r :
  Forall (fun e => exists d', net env (fst e) = Fulfils d' (snd e))
         entries ->
  In u (map fst entries) ->
  net env u = Fulfils d r ->
  entry_match (fold_left (fun c e => entry_put c (fst e) (snd e))
                         entries c) u = Some r.
Proof.
  intros Hes Hin Hnet. rewrite entry_match_fold_put.
  destruct (find (fun e => String.eqb (fst e) u) (rev entries))
    as [e|] eqn:Ef.
  - apply find_some in Ef as [He Hu]. apply String.eqb_eq in Hu.
    apply in_rev in He. rewrite Forall_forall in Hes.
    destruct (Hes e He) as (d' & Hd'). congruence.
  - apply in_map_iff in Hin as (e & Hu & He).
    apply in_rev in He. apply (find_none _ _ Ef) in He.
    rewrite Hu, String.eqb_refl in He. discriminate.
Qed.

Lemma cache_addAll_frame (cache : string) (urls : list string) (w : World) :
  let w' := fst (cache_addAll env cache urls w) in
  (forall name, has_cache (caches w') name = has_cache (caches w) name) /\
  (forall other, other <> cache ->
     lookup (caches w') other = lookup (caches w) other).
Proof.
  destruct w as [s n t]. rewrite cache_addAll_spec. cbv zeta.
  destruct (promise_all _) as [|d l|d e]; cbn [fst caches]; auto.
  destruct (existsb _ urls); cbn [fst caches]; auto. split.
  - intros name. apply has_cache_update.
  - intros other H. now apply lookup_update_other.
Qed.

(** When its fetches are answered with ok responses and the writes are
    accepted, [addAll] returns, and each URL maps to what was fetched. *)
Lemma cache_addAll_ok (cache : string) (urls : list string) (w : World) :
  has_cache (caches w) cache = true ->
  Forall (fun u => exists d r, net env u = Fulfils d r /\
                               response_ok r = true) urls ->
  existsb (put_fails env cache) urls = false ->
  exists w',
    cache_addAll env cache urls w = (w', Val tt) /\
    (forall u d r, In u urls -> net env u = Fulfils d r ->
       entry_match (lookup (caches w') cache) u = Some r) /\
    (forall other, other <> cache ->
       lookup (caches w') other = lookup (caches w) other) /\
    (forall name, has_cache (caches w') name = has_cache (caches w) name).
Proof.
  intros Hhas Hok Hput. destruct w as [s n t]. cbn [caches] in *.
  destruct (promise_all_fetched Hok) as (D & entries & Hall & Hfst & Hes).
  rewrite cache_addAll_spec. cbv zeta. rewrite Hall, Hput.
  eexists. split; [reflexivity|]. cbn [caches]. split; [|split].
  - intros u d r Hin Hnet. rewrite lookup_update_same by exact Hhas.
    apply fold_put_fetched with (d := d); auto. now rewrite Hfst.
  - intros other H. now apply lookup_update_other.
  - intros name. apply has_cache_update.
Qed.

Lemma async_run {A} (m : M A) (w : World) :
  exists p,
    async m w =
    (mkWorld (caches (fst (m w))) (now w) (trace (fst (m w))), Val p).
Proof. unfold async. destruct (m w) as [w' r]. eauto. Qed.

Lemma assets_not_pages : assetCacheName cfg <> pagesCacheName.
Proof. unfold assetCacheName, pagesCacheName. cbn. discriminate. Qed.

Lemma cacheClients_frame (w : World) (other : string) :
  other <> pagesCacheName ->
  lookup (caches (fst (cacheClients env w))) other = lookup (caches w) other.
Proof.
  intros Hother. destruct w as [s n t].
  destruct (cache_addAll_frame pagesCacheName
              (map client_url (allClients env))
              (mkWorld (ensure s pagesCacheName) n t)) as [_ Hframe].
  specialize (Hframe other Hother). cbn [caches] in Hframe.
  rewrite lookup_ensure in Hframe.
  cbv beta iota zeta delta
    [cacheClients try_catch bind clients_matchAll ret caches_open
     modify_caches throw log emit caches now trace].
  destruct (open_fails env pagesCacheName); [reflexivity|].
  destruct (cache_addAll env pagesCacheName _ _) as [w' [[]|e|]];
    cbn [fst caches] in *; exact Hframe.
Qed.

Lemma updateAssetCache_ok (w : World) :
  open_fails env (assetCacheName cfg) = false ->
  Forall (fun u => exists d r, net env u = Fulfils d r /\
                               response_ok r = true) (requiredUrls cfg) ->
  existsb (put_fails env (assetCacheName cfg)) (requiredUrls cfg) = false ->
  exists w1,
    updateAssetCache cfg env w = (w1, Val (Some (assetCacheName cfg))) /\
    (forall u d r, In u (requiredUrls cfg) -> net env u = Fulfils d r ->
       entry_match (lookup (caches w1) (assetCacheName cfg)) u = Some r).
Proof.
  intros Hopen Hok Hput. destruct w as [s n t].
  set (w0 := mkWorld (ensure s (assetCacheName cfg)) n t).
  destruct (async_run
              (cache_addAll env (assetCacheName cfg)
                 [resolve cfg "/app.webmanifest"]) w0) as (p & Hasync).
  set (wM := mkWorld _ _ _) in Hasync.
  assert (HhasM : has_cache (caches wM) (assetCacheName cfg) = true).
  { subst wM. cbn [caches].
    destruct (cache_addAll_frame (assetCacheName cfg)
                [resolve cfg "/app.webmanifest"] w0) as [Hh _].
    rewrite Hh. apply has_cache_ensure. }
  destruct (cache_addAll_ok (assetCacheName cfg) wM HhasM Hok Hput)
    as (w1 & Hrun & Hentries & _).
  exists w1. split; [|exact Hentries].
  unfold updateAssetCache. apply try_catch_val.
  erewrite bind_val
    by (unfold caches_open; rewrite Hopen; reflexivity).
  fold w0. erewrite bind_val by exact Hasync.
  fold (requiredUrls cfg). erewrite bind_val by exact Hrun.
  reflexivity.
Qed.

(** X10. When the assets cache opens, the three required URLs are
    answered with ok responses and their writes are accepted, the
    installation leaves each of them in the assets cache with the
    response fetched for it, whatever happens to the manifest and to the
    pages of the clients; so an offline page can be found from then on,
    and activation keeps it. *)
Theorem install_precaches_required (w : World) :
  let w' := fst (install cfg env w) in
  let w'' := fst (activate cfg env w') in
  open_fails env (assetCacheName cfg) = false ->
  Forall (fun u => exists d r, net env u = Fulfils d r /\
                               response_ok r = true) (requiredUrls cfg) ->
  existsb (put_fails env (assetCacheName cfg)) (requiredUrls cfg) = false ->
  (forall u d r, In u (requiredUrls cfg) -> net env u = Fulfils d r ->
     entry_match (lookup (caches w') (assetCacheName cfg)) u = Some r /\
     entry_match (lookup (caches w'') (assetCacheName cfg)) u = Some r) /\
  match_any (caches w') (resolve cfg "/offline") <> None.
Proof.
  intros w' w'' Hopen Hok Hput.
  destruct (updateAssetCache_ok w Hopen Hok Hput) as (w1 & Hrun & Hentries).
  assert (Hw' : lookup (caches w') (assetCacheName cfg) =
                lookup (caches w1) (assetCacheName cfg)).
  { subst w'. unfold install. erewrite bind_val by exact Hrun.
    pose proof (cacheClients_frame w1 assets_not_pages) as Hframe.
    unfold bind, skipWaiting, emit.
    destruct (cacheClients env w1) as [w2 [a|e|]];
      cbn [fst caches] in *; exact Hframe. }
  assert (Hw'' : lookup (caches w'') (assetCacheName cfg) =
                 lookup (caches w') (assetCacheName cfg)).
  { subst w''. destruct w' as [s' n' t']. rewrite activate_spec.
    cbn [fst caches]. apply lookup_filter. apply cacheList_has_iff.
    simpl. auto. }
  split.
  - intros u d r Hin Hnet. rewrite Hw'', Hw'.
    split; eapply Hentries; eauto.
  - apply entry_found_match_any with (name := assetCacheName cfg).
    rewrite Hw'. rewrite Forall_forall in Hok.
    destruct (Hok (resolve cfg "/offline")) as (d & r & Hnet & _);
      [simpl; auto|].
    erewrite Hentries; [discriminate| |exact Hnet]. simpl. auto.
Qed.


(** X12. A second activation finds nothing to delete: it leaves the
    caches as the first one left them and only claims and notifies
    again. *)
Theorem activate_twice (w : World) :
  let w1 := fst (activate cfg env w) in
  activate cfg env w1 =
  (mkWorld (caches w1) (now w1)
     (trace w1 ++ [EvClaim]
        ++ map (fun c => EvPostMessage (client_id c) "SW_UPDATED"
                           (APP_VERSION cfg))
             (allClients env)),
   Val tt).
Proof.
  destruct w as [s n t]. cbv zeta. rewrite activate_spec. cbn [fst].
  rewrite activate_spec. cbn [caches now trace].
  rewrite filter_twice, names_filter, filter_twice.
  f_equal. f_equal.
  - apply filter_ext. intros p. apply andb_diag.
  - f_equal.
    replace (filter _ (names s)) with (@nil string); [reflexivity|].
    symmetry. induction (names s) as [|k ks IH]; cbn; auto.
    now rewrite andb_negb_r.
Qed.

(** X13. The router.  A request from another origin or with a method
    other than GET is left to the browser; of the others, a navigation or
    a request that accepts HTML goes to the navigation strategy even when
    its URL is that of a hashed asset, then a hashed-asset URL goes to the
    cache-first strategy, and the rest to the generic one. *)
Theorem route_cases (request : Request) :
  (route cfg request = None <-> ~ sameOriginGet cfg request) /\
  (route cfg request = Some Navigation <->
   sameOriginGet cfg request /\ wantsHtml request) /\
  (route cfg request = Some ImmutableAsset <->
   sameOriginGet cfg request /\ ~ wantsHtml request /\
   isHashedAsset (url request) = true) /\
  (route cfg request = Some Generic <->
   sameOriginGet cfg request /\ ~ wantsHtml request /\
   isHashedAsset (url request) = false).
Proof.
  unfold route, sameOriginGet, wantsHtml.
  rewrite <- StrFacts.includes_iff.
  destruct (String.eqb_spec (url_origin request) (location_origin cfg));
    destruct (String.eqb_spec (method request) "GET");
    destruct (String.eqb_spec (mode request) "navigate");
    destruct (Str.includes "text/html" _);
    destruct (isHashedAsset (url request));
    cbn [negb orb]; intuition (discriminate || congruence).
Qed.

(** X22. The install promise never rejects, whatever the network and the
    storage do; and when it resolves, [skipWaiting] has been called, as
    the last thing done. *)
Theorem install_settles (w : World) :
  (forall e, snd (install cfg env w) <> Exc e) /\
  (snd (install cfg env w) = Val tt ->
   exists tr, trace (fst (install cfg env w)) = tr ++ [EvSkipWaiting]).
Proof.
  split; [intros e; apply install_never_rejects|].
  unfold install, bind, skipWaiting, emit.
  destruct (updateAssetCache cfg env w) as [w1 [a1|e1|]]; cbn;
    try discriminate.
  destruct (cacheClients env w1) as [w2 [a2|e2|]]; cbn;
    try discriminate.
  intros _. eauto.
Qed.

(** X23. The broadcast.  Each client, controlled or not, is posted one
    [SW_UPDATED] message, in the order of [matchAll], and the version in
    it is the version token of the build, also when the token itself
    contains [assets-]; nothing else changes. *)
Theorem notifyClients_posts_version (w : World) :
  notifyClients cfg env w =
  (mkWorld (caches w) (now w)
     (trace w ++ map (fun c => EvPostMessage (client_id c) "SW_UPDATED"
                                 (APP_VERSION cfg))
                   (allClients env)),
   Val tt).
Proof. destruct w as [s n t]. apply notifyClients_spec. Qed.

(** X24. The URLs treated as hashed assets are those that end with
    [/assets/app-], then one or more characters among [a]-[f] and
    [0]-[9], then [.js] or [.css]: nothing may follow the extension, and
    the digest is not empty and has no upper-case digit. *)
Theorem hashedAsset_pattern (u : string) :
  isHashedAsset u = true <->
  exists before digest ext,
    u = (before ++ "/assets/app-" ++ digest ++ "." ++ ext)%string /\
    digest <> "" /\
    Str.all_chars (fun c => Regex.in_class c hexDigit) digest = true /\
    (ext = "js" \/ ext = "css").
Proof. apply isHashedAsset_iff. Qed.

End LifecycleMore.

(* ================================================================== *)
(** * The media browser *)
(* ================================================================== *)

Module MediaBrowserFacts.
Import MediaBrowser.

Section WithPlatform.
Variable decodeURIComponent : string -> option string.
Variable encodeURIComponent : string -> string.
Variable hasOnClose : bool.
Variable server : Query -> Reply.

Local Abbreviation fetchMedia := (fetchMedia decodeURIComponent encodeURIComponent server).
Local Abbreviation handle :=
  (handle decodeURIComponent encodeURIComponent hasOnClose server).
Local Abbreviation run := (run decodeURIComponent encodeURIComponent hasOnClose server).
Local Abbreviation consistent := (consistent decodeURIComponent encodeURIComponent).
Local Abbreviation tileOf := (tileOf decodeURIComponent encodeURIComponent).
Local Abbreviation openMediaBrowser :=
  (openMediaBrowser decodeURIComponent encodeURIComponent server).

Local Abbreviation closeCalls := (closeCalls hasOnClose).

(** ** The last segment of a URL *)

Lemma split_not_nil (sep : ascii) (s : string) : split sep s <> [].
Proof.
  destruct s as [|c s]; cbn; [discriminate|].
  destruct (Ascii.eqb c sep); [discriminate|].
  destruct (split sep s); discriminate.
Qed.

Lemma last_split_spec (sep : ascii) (s : string) :
  exists pre,
    s = (pre ++ last (split sep s) "")%string /\
    (List.length (split sep s) = 1 -> pre = "") /\
    (List.length (split sep s) <> 1 ->
     exists pre', pre = (pre' ++ String sep "")%string) /\
    Str.all_chars (fun c => negb (Ascii.eqb c sep))
                  (last (split sep s) "") = true.
Proof.
  induction s as [|c s (pre & Hs & H1 & Hn & Hno)].
  - exists "". cbn. repeat split; auto. intros H. now elim H.
  - cbn [split]. destruct (Ascii.eqb c sep) eqn:Ec.
    + apply Ascii.eqb_eq in Ec. subst c.
      pose proof (split_not_nil sep s) as Hne.
      destruct (split sep s) as [|h t] eqn:Esp; [congruence|].
      exists (String sep pre).
      change (last ("" :: h :: t) "") with (last (h :: t) "").
      split; [cbn [String.append]; f_equal; exact Hs|].
      split; [cbn; discriminate|].
      split; [|exact Hno]. intros _.
      destruct t as [|h' t].
      * rewrite H1 by reflexivity. now exists "".
      * destruct Hn as (pre' & ->); [cbn; discriminate|].
        now exists (String sep pre').
    + pose proof (split_not_nil sep s) as Hne.
      destruct (split sep s) as [|h t] eqn:Esp; [congruence|].
      destruct t as [|h' t].
      * exists "". cbn in *. rewrite H1 in Hs by reflexivity.
        cbn in Hs. subst s. repeat split; auto.
        -- intros H. now elim H.
        -- now rewrite Ec, Hno.
      * exists (String c pre).
        change (last (String c h :: h' :: t) "") with (last (h :: h' :: t) "").
        split; [cbn [String.append]; f_equal; exact Hs|].
      split; [cbn; discriminate|].
        split; [|exact Hno]. intros _.
        destruct Hn as (pre' & ->); [cbn; discriminate|].
        now exists (String c pre').
Qed.

(** X14. The file name of a tile is the decoded text after the last
    slash of the URL, and that text as it is when it cannot be decoded,
    so [getFilename] always has a name to give; the text has no slash in
    it, and it is the whole URL when the URL has none. *)
Theorem getFilename_last_segment (u : string) :
  getFilename decodeURIComponent u =
    match decodeURIComponent (lastSegment u) with
    | Some name => name
    | None => lastSegment u
    end /\
  Str.all_chars (fun c => negb (Ascii.eqb c "/")) (lastSegment u) = true /\
  (exists pre,
     u = (pre ++ lastSegment u)%string /\
     (pre = "" \/ exists pre', pre = (pre' ++ "/")%string)) /\
  (Str.all_chars (fun c => negb (Ascii.eqb c "/")) u = true ->
   lastSegment u = u).
Proof.
  unfold getFilename, lastSegment.
  destruct (last_split_spec "/" u) as (pre & Hu & H1 & Hn & Hno).
  split; [reflexivity|]. split; [exact Hno|]. split.
  - exists pre. split; [exact Hu|].
    destruct (Nat.eq_dec (List.length (split "/" u)) 1) as [E|E]; auto.
  - intros Hall.
    destruct (Nat.eq_dec (List.length (split "/" u)) 1) as [E|E].
    + rewrite (H1 E) in Hu. cbn in Hu. congruence.
    + destruct (Hn E) as (pre' & ->). exfalso.
      rewrite Hu in Hall. clear -Hall.
      induction pre' as [|c p IH]; cbn in Hall; [discriminate|].
      apply andb_true_iff in Hall as [_ Hall]. auto.
Qed.

(** ** Loads *)

(** X15. A load that succeeds appends the items of the reply to those
    already loaded, keeps the cursor of the reply for the next request,
    which asks for [q=source], [limit=20] and [after] that cursor, and
    shows the load-more button exactly when the reply had a cursor. *)
Theorem fetchMedia_success (b : Browser) items pagingAfter :
  server (queryOf b) = Data items pagingAfter ->
  let b' := fetchMedia b in
  allItems b' = allItems b ++ match items with Some l => l | None => [] end /\
  queryOf b' = mkQuery "source" "20" (cursorOf pagingAfter) /\
  (loadMoreHidden b' = false <->
   exists a, pagingAfter = Some a /\ a <> "") /\
  grid b' = Tiles (map tileOf (getFilteredItems (activeFilter b)
                                 (allItems b'))) /\
  loadingHidden b' = true.
Proof.
  intros Hreply. unfold MediaBrowser.fetchMedia. rewrite Hreply.
  cbn. repeat split; auto.
  - unfold cursorOf. destruct pagingAfter as [a|]; [|discriminate].
    destruct (String.eqb_spec a ""); [discriminate|eauto].
  - intros (a & -> & Ha). unfold cursorOf.
    apply String.eqb_neq in Ha. now rewrite Ha.
Qed.

(** X16. A load that fails loses nothing that was loaded, and keeps the
    cursor and the filter; it shows the error in place of the tiles and
    hides the load-more button, so that the next page cannot be asked
    for any more; choosing a filter shows the loaded items again. *)
Theorem fetchMedia_failure (b : Browser) :
  (forall items pagingAfter, server (queryOf b) <> Data items pagingAfter) ->
  let b' := fetchMedia b in
  allItems b' = allItems b /\
  afterCursor b' = afterCursor b /\
  activeFilter b' = activeFilter b /\
  (exists text, grid b' = ErrorMessage text) /\
  loadingHidden b' = true /\
  handle ClickLoadMore b' = (b', []) /\
  (attached b = true ->
   forall name, In name filterButtons ->
     grid (fst (handle (ClickFilter name) b')) =
     Tiles (map tileOf (getFilteredItems name (allItems b)))).
Proof.
  intros Hfail. unfold MediaBrowser.fetchMedia.
  destruct (server (queryOf b)) as [m|m|m|items after];
    [| | |now elim (Hfail items after)];
    (unfold showError, MediaBrowser.handle;
     cbn [allItems afterCursor activeFilter grid loadingHidden
          loadMoreHidden attached fst];
     repeat split; eauto;
     [ now destruct (attached b)
     | intros Hatt name Hin; rewrite Hatt; cbn [negb];
       replace (existsb (String.eqb name) filterButtons) with true
         by (symmetry; apply existsb_exists; exists name; split; auto;
             apply String.eqb_refl);
       reflexivity ]).
Qed.

(** ** The state kept over any sequence of events *)

Lemma consistent_renderGrid (b : Browser) :
  (loadMoreHidden b = false -> afterCursor b <> None) ->
  escapeBound b = attached b ->
  consistent (renderGrid decodeURIComponent encodeURIComponent b).
Proof.
  intros H1 H2. unfold MediaBrowser.consistent, renderGrid. cbn.
  repeat split; auto. intros tiles H. now injection H as <-.
Qed.

Lemma consistent_fetchMedia (b : Browser) :
  escapeBound b = attached b -> consistent (fetchMedia b).
Proof.
  intros H. unfold MediaBrowser.consistent, MediaBrowser.fetchMedia.
  destruct (server (queryOf b)) as [m|m|m|items after]; cbn;
    repeat split; auto; try discriminate.
  - intros tiles Ht. now injection Ht as <-.
  - destruct (cursorOf after); [discriminate|]. discriminate.
Qed.

Lemma consistent_handle (ev : UiEvent) (b : Browser) :
  consistent b -> consistent (fst (handle ev b)).
Proof.
  intros Hb. pose proof Hb as (Hg & Hm & He).
  unfold MediaBrowser.handle, close.
  destruct ev;
    repeat match goal with
           | |- context [if ?c then _ else _] => destruct c eqn:?
           | |- context [match grid b with _ => _ end] =>
               destruct (grid b) eqn:?
           | |- context [match nth_error ?l ?i with _ => _ end] =>
               destruct (nth_error l i) eqn:?
           end;
    cbn [fst];
    first [ exact Hb
          | apply consistent_renderGrid; cbn; now auto
          | apply consistent_fetchMedia; now auto
          | unfold MediaBrowser.consistent; cbn; now auto ].
Qed.

(** X17. Whatever the user does after the modal has opened and whatever
    the endpoint replies, the tiles in the grid are those of the loaded
    items that pass the active filter, in the order loaded; the load-more
    button is shown only when there is a cursor for the next request; and
    the keydown listener is registered exactly while the overlay is in
    the document. *)
Theorem mediaBrowser_consistent (filterType : option string)
    (evs : list UiEvent) :
  consistent (fst (run evs (openMediaBrowser filterType))).
Proof.
  assert (Hopen : consistent (openMediaBrowser filterType))
    by (apply consistent_fetchMedia; reflexivity).
  revert Hopen. generalize (openMediaBrowser filterType) as b.
  induction evs as [|ev evs IH]; intros b Hb; cbn [MediaBrowser.run].
  - exact Hb.
  - pose proof (consistent_handle ev Hb) as H1.
    destruct (handle ev b) as [b1 c1]. cbn [fst] in H1.
    specialize (IH b1 H1).
    destruct (run evs b1) as [b2 c2]. exact IH.
Qed.

(** ** Callbacks *)

Lemma handle_detached (ev : UiEvent) (b : Browser) :
  attached b = false -> escapeBound b = false -> handle ev b = (b, []).
Proof.
  intros Ha He. unfold MediaBrowser.handle.
  destruct ev; rewrite ?Ha, ?He; reflexivity.
Qed.

Lemma run_detached (evs : list UiEvent) (b : Browser) :
  attached b = false -> escapeBound b = false -> run evs b = (b, []).
Proof.
  intros Ha He. induction evs as [|ev evs IH]; cbn [MediaBrowser.run]; auto.
  rewrite handle_detached by auto. now rewrite IH.
Qed.

(** One event either makes no callback and leaves the overlay where it
    is, or closes the modal, after [onSelect] when a tile was chosen. *)
Lemma handle_calls (ev : UiEvent) (b : Browser) :
  escapeBound b = attached b ->
  let (b', calls) := handle ev b in
  (calls = [] /\ attached b' = attached b /\ escapeBound b' = attached b') \/
  (attached b = true /\ attached b' = false /\ escapeBound b' = false /\
   (calls = closeCalls \/
    exists i tiles t,
      ev = ClickTile i /\ grid b = Tiles tiles /\
      nth_error tiles i = Some t /\
      calls = OnSelect (tile_url t) (tile_filename t) (tile_isImage t)
              :: closeCalls)).
Proof.
  intros He. unfold MediaBrowser.handle.
  assert (Hcl : attached b = true ->
                let (b', calls) := close hasOnClose b in
                (calls = [] /\ attached b' = attached b /\
                 escapeBound b' = attached b') \/
                (attached b = true /\ attached b' = false /\
                 escapeBound b' = false /\
                 (calls = closeCalls \/
                  exists i tiles t,
                    ev = ClickTile i /\ grid b = Tiles tiles /\
                    nth_error tiles i = Some t /\
                    calls = OnSelect (tile_url t) (tile_filename t)
                              (tile_isImage t) :: closeCalls)))
    by (intros Ha; unfold close; cbn; right; auto).
  destruct ev as [name| | | |i|key].
  - destruct (attached b) eqn:Ha; cbn [negb]; [|left; repeat split; auto; congruence].
    destruct (existsb _ filterButtons); left; cbn; repeat split; auto; congruence.
  - destruct (attached b) eqn:Ha; cbn [negb]; [|left; repeat split; auto; congruence].
    destruct (loadMoreHidden b); [left; repeat split; auto; congruence|]. left.
    unfold MediaBrowser.fetchMedia.
    destruct (server (queryOf b)); cbn; repeat split; auto; congruence.
  - destruct (attached b) eqn:Ha; cbn [negb]; [|left; repeat split; auto; congruence].
    now apply Hcl.
  - destruct (attached b) eqn:Ha; cbn [negb]; [|left; repeat split; auto; congruence].
    now apply Hcl.
  - destruct (attached b) eqn:Ha; cbn [negb]; [|left; repeat split; auto; congruence].
    destruct (grid b) as [tiles|text] eqn:Eg; [|left; repeat split; auto; congruence].
    destruct (nth_error tiles i) as [t|] eqn:Et; [|left; repeat split; auto; congruence].
    unfold close. cbn. right. repeat split; auto.
    right. exists i, tiles, t. auto.
  - destruct (escapeBound b) eqn:Eb; cbn [andb]; [|left; repeat split; auto; congruence].
    destruct (String.eqb key "Escape"); [|left; repeat split; auto; congruence].
    apply Hcl. congruence.
Qed.

(** X18. Over any sequence of events a modal makes at most one call of
    [onSelect] and at most one of [onClose], and the call of [onSelect]
    is followed at once by that of [onClose]: the callbacks made are
    none, or [onClose] alone, or [onSelect] for the tile clicked and then
    [onClose].  Once a callback is made the overlay is out of the
    document and the keydown listener is gone. *)
Theorem mediaBrowser_callbacks (evs : list UiEvent) (b : Browser) :
  escapeBound b = attached b ->
  let (b', calls) := run evs b in
  calls = [] \/
  (attached b' = false /\ escapeBound b' = false /\
   (calls = closeCalls \/
    exists u filename isImage,
      calls = OnSelect u filename isImage :: closeCalls)).
Proof.
  revert b. induction evs as [|ev evs IH]; intros b He;
    cbn [MediaBrowser.run]; [now left|].
  pose proof (handle_calls ev b He) as H1.
  destruct (handle ev b) as [b1 c1].
  destruct H1 as [(-> & Ha & Hb)|(Ha & Ha1 & Hb1 & Hc)].
  - specialize (IH b1 Hb). destruct (run evs b1) as [b2 c2]. exact IH.
  - rewrite run_detached by auto. rewrite app_nil_r. right.
    repeat split; auto.
    destruct Hc as [->|(i & tiles & t & _ & _ & _ & ->)]; eauto.
Qed.

End WithPlatform.

End MediaBrowserFacts.

(* ================================================================== *)
(** * The file input and its media browser *)
(* ================================================================== *)

Module FileInputFacts.
Import MediaBrowser FileInput.

Section WithPlatform.
Variable decodeURIComponent : string -> option string.
Variable encodeURIComponent : string -> string.
Variable server : Query -> Reply.

Local Abbreviation handle :=
  (MediaBrowser.handle decodeURIComponent encodeURIComponent true server).
Local Abbreviation dispatch :=
  (dispatch decodeURIComponent encodeURIComponent server).
Local Abbreviation step := (step decodeURIComponent encodeURIComponent server).
Local Abbreviation steps :=
  (steps decodeURIComponent encodeURIComponent server).

(** What one modal does to the field on one event. *)
Lemma handle_field (ev : UiEvent) (b : Browser) (f : Field) :
  escapeBound b = attached b ->
  let (b', cs) := handle ev b in
  escapeBound b' = attached b' /\
  acceptAttr (callbacks cs f) = acceptAttr f /\
  ((attached b' = attached b /\ callbacks cs f = f) \/
   (attached b = true /\ attached b' = false /\
    mediaBrowserOpen (callbacks cs f) = false)).
Proof.
  intros He.
  pose proof (MediaBrowserFacts.handle_calls
                decodeURIComponent encodeURIComponent true server ev b He)
    as H.
  destruct (handle ev b) as [b' cs].
  destruct H as [(-> & Ha & Hb)|(Ha & Ha' & Hb' & Hc)].
  - cbn. repeat split; auto.
  - split; [congruence|].
    destruct Hc as [->|(i & tiles & t & _ & _ & _ & ->)]; cbn;
      (split; [reflexivity|right; auto]).
Qed.

Lemma dispatch_modals (pick : nat -> bool) (ev : UiEvent) :
  forall (bs : list Browser) (i : nat) (f : Field),
  bound bs ->
  let (bs', f') := dispatch pick ev i bs f in
  bound bs' /\
  acceptAttr f' = acceptAttr f /\
  ((attachedCount bs' = attachedCount bs /\
    mediaBrowserOpen f' = mediaBrowserOpen f) \/
   (attachedCount bs' < attachedCount bs /\ mediaBrowserOpen f' = false)).
Proof.
  unfold attachedCount.
  induction bs as [|b bs IH]; intros i f Hb; cbn [FileInput.dispatch].
  - repeat split; auto.
  - inversion Hb as [|? ? Hb1 Hbs]; subst.
    assert (Hhead :
      let (b', cs) := if pick i then handle ev b else (b, []) in
      escapeBound b' = attached b' /\
      acceptAttr (callbacks cs f) = acceptAttr f /\
      ((attached b' = attached b /\ callbacks cs f = f) \/
       (attached b = true /\ attached b' = false /\
        mediaBrowserOpen (callbacks cs f) = false))).
    { destruct (pick i); [now apply handle_field|cbn; auto]. }
    destruct (if pick i then handle ev b else (b, [])) as [b' cs].
    destruct Hhead as (Hb' & Hacc & Hcase).
    specialize (IH (S i) (callbacks cs f) Hbs).
    destruct (dispatch pick ev (S i) bs (callbacks cs f)) as [bs' f'].
    destruct IH as (Hbs' & Hacc' & Hrest).
    split; [now constructor|]. split; [congruence|].
    cbn [List.filter].
    destruct Hcase as [(Ha & Hf)|(Ha & Ha' & Hf)].
    + rewrite Ha, Hf in *. destruct (attached b); cbn [List.length];
        destruct Hrest as [(Hc & Hm)|(Hc & Hm)]; auto; right; split; auto; lia.
    + rewrite Ha, Ha'. cbn [List.length]. right.
      destruct Hrest as [(Hc & Hm)|(Hc & Hm)]; split; try lia; congruence.
Qed.

Lemma openMediaBrowser_attached (filterType : option string) :
  let b := openMediaBrowser decodeURIComponent encodeURIComponent server
             filterType in
  attached b = true /\ escapeBound b = true.
Proof.
  unfold openMediaBrowser, fetchMedia.
  destruct (server _); cbn; auto.
Qed.

Lemma guarded_step (ev : PageEvent) (p : Page) :
  guarded p -> guarded (step ev p).
Proof.
  intros [Hb Hc]. destruct p as [f bs]. cbn [field modals] in *.
  assert (Hdisp : forall pick uev,
            let (bs', f') := dispatch pick uev 0 bs f in
            guarded (mkPage f' bs')).
  { intros pick uev.
    pose proof (dispatch_modals pick uev 0 f Hb) as H.
    destruct (dispatch pick uev 0 bs f) as [bs' f'].
    destruct H as (Hb' & _ & Hcase). split; [exact Hb'|].
    cbn [field modals].
    destruct Hcase as [(Hn & Hm)|(Hn & Hm)]; rewrite Hm.
    - now rewrite Hn.
    - destruct (mediaBrowserOpen f); lia. }
  destruct ev as [|i uev|key]; cbn [FileInput.step].
  - unfold browseMedia. cbn [field modals].
    destruct (mediaBrowserOpen f) eqn:Ef; [split; cbn; auto; now rewrite Ef|].
    destruct (openMediaBrowser_attached (Some (filterTypeOf (acceptAttr f))))
      as [Ha He].
    split; cbn [field modals mediaBrowserOpen].
    + apply Forall_app. split; auto. constructor; [congruence|constructor].
    + unfold attachedCount in *. rewrite filter_app, length_app, Hc.
      cbn [List.filter]. now rewrite Ha.
  - cbn [field modals].
    destruct uev;
      try (match goal with
           | |- context [dispatch ?pick ?uev 0 bs f] =>
               specialize (Hdisp pick uev);
               destruct (dispatch pick uev 0 bs f) as [bs' f'];
               exact Hdisp
           end).
    split; auto.
  - cbn [field modals].
    specialize (Hdisp (fun _ => true) (MediaBrowser.KeyDown key)).
    destruct (dispatch (fun _ => true) (MediaBrowser.KeyDown key) 0 bs f)
      as [bs' f'].
    exact Hdisp.
Qed.

(** X19. The guard of [browseMedia].  From a field with no modal open,
    whatever is clicked and typed, at most one modal is in the document,
    and [_mediaBrowserOpen] is set exactly when one is: a second click on
    "Browse media" opens nothing while a modal is open, and the button
    works again once the modal has closed, by a choice as well as by a
    dismissal. *)
Theorem browseMedia_guard (evs : list PageEvent) (path : string)
    (acceptAttr : option string) :
  let p := steps evs (mkPage (mkField false path acceptAttr) []) in
  attachedCount (modals p) = (if mediaBrowserOpen (field p) then 1 else 0) /\
  (mediaBrowserOpen (field p) = true -> browseMedia
     decodeURIComponent encodeURIComponent server p = p) /\
  (mediaBrowserOpen (field p) = false ->
   attachedCount
     (modals (browseMedia decodeURIComponent encodeURIComponent server p))
   = 1).
Proof.
  intros p.
  assert (Hg : guarded p).
  { subst p. unfold FileInput.steps.
    assert (H0 : guarded (mkPage (mkField false path acceptAttr) []))
      by (split; [constructor|reflexivity]).
    revert H0. generalize (mkPage (mkField false path acceptAttr) []).
    induction evs as [|ev evs IH]; intros q Hq; cbn [fold_left]; auto.
    apply IH. now apply guarded_step. }
  destruct Hg as [Hb Hc]. split; [exact Hc|]. split.
  - intros Ho. unfold browseMedia. now rewrite Ho.
  - intros Ho. pose proof (guarded_step ClickBrowse (conj Hb Hc)) as [_ H].
    cbn [FileInput.step] in H. rewrite H.
    unfold browseMedia. now rewrite Ho.
Qed.

(** X20. Choosing a tile in the open modal puts the URL of the item into
    the path input, takes the modal out of the document and clears
    [_mediaBrowserOpen]. *)
Theorem choose_fills_path (f : Field) (b : Browser) (i : nat)
    (tiles : list Tile) (t : Tile) :
  attached b = true ->
  grid b = Tiles tiles ->
  nth_error tiles i = Some t ->
  let p := step (ClickIn 0 (ClickTile i)) (mkPage f [b]) in
  pathValue (field p) = tile_url t /\
  mediaBrowserOpen (field p) = false /\
  attachedCount (modals p) = 0.
Proof.
  intros Ha Hg Ht.
  cbn [FileInput.step FileInput.dispatch field modals].
  unfold MediaBrowser.handle. cbn [Nat.eqb]. rewrite Ha, Hg, Ht.
  cbn. auto.
Qed.

End WithPlatform.

End FileInputFacts.

(* ================================================================== *)
(** * The sidebar *)
(* ================================================================== *)

Module SidebarFacts.
Import Sidebar.

Lemma contains_add_same (t : string) (l : list string) :
  contains t (add t l) = true.
Proof.
  unfold add. destruct (contains t l) eqn:E; auto.
  unfold contains. rewrite existsb_app. cbn.
  now rewrite String.eqb_refl, orb_true_r.
Qed.

Lemma contains_remove_same (t : string) (l : list string) :
  contains t (remove t l) = false.
Proof.
  unfold contains, remove. induction l as [|x l IH]; cbn; auto.
  destruct (String.eqb x t) eqn:E; cbn; auto.
  rewrite String.eqb_sym, E. auto.
Qed.

Lemma contains_add_other (t t' : string) (l : list string) :
  t' <> t -> contains t' (add t l) = contains t' l.
Proof.
  intros D. unfold add. destruct (contains t l); auto.
  unfold contains. rewrite existsb_app. cbn.
  apply String.eqb_neq in D. now rewrite D, !orb_false_r.
Qed.

Lemma contains_remove_other (t t' : string) (l : list string) :
  t' <> t -> contains t' (remove t l) = contains t' l.
Proof.
  intros D. unfold contains, remove. induction l as [|x l IH]; cbn; auto.
  destruct (String.eqb x t) eqn:E; cbn; rewrite IH; auto.
  apply String.eqb_eq in E. subst x.
  apply String.eqb_neq in D. now rewrite D.
Qed.

Lemma inStep_handle (ev : Event) (s : State) :
  inStep s -> inStep (handle ev s).
Proof.
  intros H.
  assert (Hopen : inStep (open s)).
  { intros b Hb. unfold open, isOpen in *.
    cbn [backdrop classList] in *.
    destruct (backdrop s) as [b0|]; [|discriminate].
    injection Hb as <-. now rewrite !contains_add_same. }
  assert (Hclose : inStep (close s)).
  { intros b Hb. unfold close, isOpen in *.
    cbn [backdrop classList] in *.
    destruct (backdrop s) as [b0|]; [|discriminate].
    injection Hb as <-. now rewrite !contains_remove_same. }
  unfold handle. destruct ev as [| | |key|m].
  - destruct (hasCloseButton s); auto.
  - destruct (backdrop s); auto.
  - destruct (hasHamburger s); auto.
  - destruct (String.eqb key "Escape" && isOpen s); auto.
  - destruct (m && isOpen s); auto.
Qed.

Lemma other_classes_handle (ev : Event) (s : State) (t : string) :
  t <> "sidebar--open" ->
  contains t (classList (handle ev s)) = contains t (classList s).
Proof.
  intros D.
  assert (Hopen : contains t (classList (open s)) = contains t (classList s))
    by (cbn [open classList]; now apply contains_add_other).
  assert (Hclose : contains t (classList (close s)) = contains t (classList s))
    by (cbn [close classList]; now apply contains_remove_other).
  unfold handle. destruct ev as [| | |key|m].
  - destruct (hasCloseButton s); auto.
  - destruct (backdrop s); auto.
  - destruct (hasHamburger s); auto.
  - destruct (String.eqb key "Escape" && isOpen s); auto.
  - destruct (m && isOpen s); auto.
Qed.

(** X21. Over any sequence of clicks, key presses and changes of the
    viewport, a backdrop that starts in step with the sidebar stays in
    step: it is visible exactly when the sidebar is open.  No class of
    the sidebar other than [sidebar--open] is added or removed.  Escape
    and a widening of the viewport do nothing, and leave the focus where
    it is, when the sidebar is closed. *)
Theorem sidebar_in_step (evs : list Event) (s : State) :
  inStep s ->
  inStep (run evs s) /\
  (forall t, t <> "sidebar--open" ->
     contains t (classList (run evs s)) = contains t (classList s)) /\
  (isOpen s = false ->
   forall key matches,
     handle (KeyDown key) s = s /\ handle (MediaChange matches) s = s).
Proof.
  intros H. split; [|split].
  - revert s H. unfold run.
    induction evs as [|ev evs IH]; intros s H; cbn [fold_left]; auto.
    apply IH. now apply inStep_handle.
  - intros t D. revert s H. unfold run.
    induction evs as [|ev evs IH]; intros s H; cbn [fold_left]; auto.
    rewrite IH by now apply inStep_handle.
    now apply other_classes_handle.
  - intros Hc key m. unfold handle. rewrite Hc.
    now rewrite !andb_false_r.
Qed.

End SidebarFacts.

(* ================================================================== *)
(** * More sample runs *)
(* ================================================================== *)

Module MoreRuns.
Import Sample MoreSample.

Lemma NoDup_fourPages :
  NoDup (Store.keys (Store.lookup (caches fourPages) "pages")).
Proof. repeat constructor; simpl; intuition discriminate. Qed.

Lemma trimCache_idempotent_witness :
  exists w1,
    trimCache envUp "pages" 2 fourPages = (w1, Val tt) /\
    trimCache envUp "pages" 2 w1 = (w1, Val tt) /\
    List.length (Store.lookup (caches w1) "pages") = 2.
Proof.
  destruct (@trimCache_idempotent envUp "pages" 2 fourPages)
    as (w1 & H1 & H2 & H3).
  - reflexivity.
  - exact NoDup_fourPages.
  - exists w1. split; [exact H1|]. split; [exact H2|]. exact H3.
Defined.



Lemma navigation_failure_leaves_caches_witness :
  caches (fst (navigationStrategy cfg envDown navigateHome cachedHome))
  = caches cachedHome.
Proof.
  apply (navigation_failure_leaves_caches cfg envDown navigateHome cachedHome).
  left. exists 15, NetworkError. reflexivity.
Defined.


Lemma navigation_uses_preload_witness :
  snd (navigationStrategy cfg envDown navigatePreloaded fresh)
  = Val (ok "preloaded").
Proof.
  destruct (@navigation_uses_preload cfg envDown navigatePreloaded fresh
              5 (ok "preloaded") eq_refl) as [_ H].
  destruct (H eq_refl) as [Hres _]. exact Hres.
Defined.

Lemma generic_hit_answers_at_once_witness :
  snd (genericStrategy cfg envDown getPhoto cachedPhoto) = Val (ok "cached").
Proof.
  destruct (@generic_hit_answers_at_once cfg envDown getPhoto cachedPhoto
              (ok "cached")) as [H _].
  - vm_compute. reflexivity.
  - exact H.
Defined.

Lemma generic_stores_only_images_witness :
  caches (fst (genericStrategy cfg envUp getFeed fresh)) = [].
Proof.
  apply (generic_stores_only_images cfg envUp getFeed fresh).
  vm_compute. reflexivity.
Defined.

Lemma hashedAsset_failure_not_cached_witness :
  snd (hashedAssetStrategy cfg envUp getScript
         (fst (hashedAssetStrategy cfg envDown getScript fresh)))
  = Val (ok script).
Proof.
  destruct (@hashedAsset_failure_not_cached cfg envDown envUp getScript
              fresh 15 NetworkError 10 (ok script))
    as (_ & _ & H & _); [reflexivity .. | exact H].
Defined.

Lemma onfetch_never_rejects_witness :
  exists r, snd (hashedAssetStrategy cfg envUp getScript fresh) = Val r.
Proof.
  destruct (@onfetch_never_rejects cfg envUp getScript
              (hashedAssetStrategy cfg envUp getScript) fresh) as [_ H].
  - apply onfetch_ImmutableAsset. vm_compute. reflexivity.
  - apply H; discriminate.
Defined.

Lemma required_answer_ok :
  Forall (fun u => exists d r, net envUp u = Fulfils d r /\
                               response_ok r = true) (requiredUrls cfg).
Proof. repeat constructor; eexists _, _; split; reflexivity. Qed.

Lemma install_precaches_required_witness :
  Store.entry_match
    (Store.lookup (caches (fst (install cfg envUp fresh))) "assets-v2")
    "https://example.org/offline"
  = Some (ok "https://example.org/offline").
Proof.
  destruct (@install_precaches_required cfg envUp fresh) as [H _].
  - reflexivity.
  - exact required_answer_ok.
  - reflexivity.
  - destruct (H "https://example.org/offline" 10
                (ok "https://example.org/offline")) as [Hw _].
    + simpl. auto.
    + reflexivity.
    + exact Hw.
Defined.


Lemma route_cases_witness :
  route cfg (request navigateHome) = Some Navigation /\
  route cfg (request getFeed) = Some Generic.
Proof.
  split.
  - apply (route_cases cfg (request navigateHome)).
    split; [split; reflexivity|]. left. reflexivity.
  - apply (route_cases cfg (request getFeed)).
    split; [split; reflexivity|]. split.
    + intros [H|H]; [discriminate|].
      apply StrFacts.includes_iff in H. vm_compute in H. discriminate.
    + vm_compute. reflexivity.
Defined.

Lemma install_settles_witness :
  exists tr, trace (fst (install cfg envUp fresh)) = tr ++ [EvSkipWaiting].
Proof.
  destruct (install_settles cfg envUp fresh) as [_ H].
  apply H. vm_compute. reflexivity.
Defined.

Lemma hashedAsset_pattern_witness :
  isHashedAsset script = true /\
  isHashedAsset "https://example.org/assets/app-0a1b2c.js?v=2" = false.
Proof.
  split.
  - apply hashedAsset_pattern.
    exists "https://example.org", "0a1b2c", "js".
    repeat split; [discriminate|left; reflexivity].
  - vm_compute. reflexivity.
Defined.

(** ** The media browser, the file input and the sidebar *)

Lemma getFilename_last_segment_witness :
  MediaBrowser.getFilename decodePlain "https://example.org/media/100%.png"
    = "100%.png" /\
  MediaBrowser.lastSegment "photo.png" = "photo.png".
Proof.
  destruct (MediaBrowserFacts.getFilename_last_segment decodePlain
              "https://example.org/media/100%.png") as (H & _).
  destruct (MediaBrowserFacts.getFilename_last_segment decodePlain
              "photo.png") as (_ & _ & _ & Hwhole).
  split.
  - rewrite H. reflexivity.
  - apply Hwhole. reflexivity.
Defined.

Lemma fetchMedia_success_witness :
  let b := MediaBrowser.openMediaBrowser decodePlain encodePlain twoPages
             None in
  MediaBrowser.allItems
    (MediaBrowser.fetchMedia decodePlain encodePlain twoPages b)
  = [photoItem; audioItem; otherItem].
Proof.
  intros b.
  destruct (@MediaBrowserFacts.fetchMedia_success decodePlain encodePlain
              twoPages b (Some [otherItem]) None eq_refl) as (H & _).
  rewrite H. reflexivity.
Defined.

Lemma fetchMedia_failure_witness :
  let b := MediaBrowser.openMediaBrowser decodePlain encodePlain forbidden
             None in
  let b' := MediaBrowser.fetchMedia decodePlain encodePlain forbidden b in
  MediaBrowser.allItems b' = MediaBrowser.allItems b /\
  MediaBrowser.handle decodePlain encodePlain true forbidden
    MediaBrowser.ClickLoadMore b' = (b', []).
Proof.
  intros b b'.
  destruct (@MediaBrowserFacts.fetchMedia_failure decodePlain encodePlain
              true forbidden b) as (Hitems & _ & _ & _ & _ & Hmore & _).
  - intros items after. discriminate.
  - split; [exact Hitems|exact Hmore].
Defined.

Lemma mediaBrowser_callbacks_witness :
  let (b', calls) :=
    MediaBrowser.run decodePlain encodePlain true twoPages
      [MediaBrowser.ClickTile 1; MediaBrowser.KeyDown "Escape"]
      (MediaBrowser.openMediaBrowser decodePlain encodePlain twoPages None)
  in
  calls = [] \/
  (MediaBrowser.attached b' = false /\
   MediaBrowser.escapeBound b' = false /\
   (calls = MediaBrowser.closeCalls true \/
    exists u filename isImage,
      calls = MediaBrowser.OnSelect u filename isImage
              :: MediaBrowser.closeCalls true)).
Proof.
  apply (@MediaBrowserFacts.mediaBrowser_callbacks decodePlain encodePlain
           true twoPages
           [MediaBrowser.ClickTile 1; MediaBrowser.KeyDown "Escape"]
           (MediaBrowser.openMediaBrowser decodePlain encodePlain twoPages
              None)).
  reflexivity.
Defined.

Lemma browseMedia_guard_witness :
  FileInput.attachedCount
    (FileInput.modals
       (FileInput.steps decodePlain encodePlain twoPages
          [FileInput.ClickBrowse; FileInput.ClickBrowse]
          (FileInput.mkPage (FileInput.mkField false "" (Some "image/*"))
             []))) = 1.
Proof.
  destruct (FileInputFacts.browseMedia_guard decodePlain encodePlain twoPages
              [FileInput.ClickBrowse; FileInput.ClickBrowse] ""
              (Some "image/*")) as (H & _).
  rewrite H. reflexivity.
Defined.

Lemma choose_fills_path_witness :
  let b := MediaBrowser.openMediaBrowser decodePlain encodePlain twoPages
             (Some "photo") in
  FileInput.pathValue
    (FileInput.field
       (FileInput.step decodePlain encodePlain twoPages
          (FileInput.ClickIn 0 (MediaBrowser.ClickTile 0))
          (FileInput.mkPage emptyField [b])))
  = "https://example.org/media/100%.png".
Proof.
  intros b.
  destruct (@FileInputFacts.choose_fills_path decodePlain encodePlain
              twoPages emptyField b 0
              [MediaBrowser.tileOf decodePlain encodePlain photoItem]
              (MediaBrowser.tileOf decodePlain encodePlain photoItem))
    as (H & _); [reflexivity .. | exact H].
Defined.

Lemma sidebar_in_step_witness :
  Sidebar.inStep
    (Sidebar.run [Sidebar.ClickHamburger; Sidebar.KeyDown "Escape"]
                 closedSidebar) /\
  Sidebar.handle (Sidebar.KeyDown "Escape") closedSidebar = closedSidebar.
Proof.
  destruct (@SidebarFacts.sidebar_in_step
              [Sidebar.ClickHamburger; Sidebar.KeyDown "Escape"]
              closedSidebar) as (H1 & _ & H3).
  - intros b Hb. injection Hb as <-. reflexivity.
  - split; [exact H1|]. apply (H3 eq_refl "Escape" true).
Defined.

End MoreRuns.
